(** * AstroChart: the aspect calculator ([project/src/aspect.ts])

    A shallow embedding of the [AspectCalculator] class and of the host
    primitives it calls, followed by the properties of the specification.

    Conventions of the embedding.
    - A JavaScript number is modelled by its mathematical value, an exact
      rational ([Q]); rounding of binary64 arithmetic, NaN and the infinities
      are outside that model.  The one place where the IEEE sign of a zero
      could show, the formatting of a negated zero precision, is treated
      on binary64 values in module [Binary64].
    - Module [F64] has the numeric methods ([hasAspect], [calcPrecision],
      [isTransitPointApproachingToAspect]) on binary64 numbers themselves,
      Rocq's primitive floats, rounding included; the properties that
      depend on how the arithmetic rounds are stated there.
    - A plain object used as a map ([Points], the aspect catalog) is the list
      of its own enumerable properties in [for ... in] order; the loops guard
      by [hasOwnProperty], which holds of exactly these entries, and
      [obj[key]] inside a loop over the keys of [obj] is the entry's value.
    - [throw] is the left injection of a sum. *)

From Stdlib Require Import QArith Qabs Qround Qminmax Lqa ZArith Lia.
From Stdlib Require Import List String Ascii Bool Sorting.Sorted.
From Stdlib Require Import Floats.PrimFloat Floats.SpecFloat Floats.FloatOps.
From Stdlib Require Floats.FloatAxioms.
From Stdlib Require Import Sorting.Permutation.
Import ListNotations.
Local Open Scope Q_scope.

(** ** Host primitives *)

Module JS.

Definition number := Q.

(** [x < y] on numbers, as a boolean. *)
Definition ltb (x y : number) : bool :=
  (Qnum x * QDen y <? Qnum y * QDen x)%Z.

(** [x <= y] on numbers, as a boolean. *)
Definition leb (x y : number) : bool := Qle_bool x y.

(** [Math.abs]. *)
Definition Math_abs (x : number) : number := Qabs x.

(** The integer part of [x], rounding towards zero. *)
Definition truncate (x : number) : Z := Z.quot (Qnum x) (QDen x).

(** The [%] operator: the remainder has the sign of the dividend,
    [x % y = x - y * trunc (x / y)]. *)
Definition rem (x y : number) : number :=
  x - y * inject_Z (truncate (x / y)).

(** Truthiness of a number: every number but zero. *)
Definition truthy (x : number) : bool := negb (Qeq_bool x 0).

(** *** Decimal digits *)

Definition digit (d : Z) : ascii := ascii_of_nat (48 + Z.to_nat d).

Definition is_digit (c : ascii) : bool :=
  ((48 <=? nat_of_ascii c) && (nat_of_ascii c <=? 57))%nat.

Definition digit_val (c : ascii) : Z := Z.of_nat (nat_of_ascii c) - 48.

(** The digits of the decimal representation of [n >= 0], most significant
    first, in front of [acc].  Every step divides [n] by ten, so
    [fuel > log2 n] steps reach the last digit. *)
Fixpoint digits_from (fuel : nat) (n : Z) (acc : list ascii) : list ascii :=
  match fuel with
  | O => acc
  | S k =>
      let acc' := digit (n mod 10) :: acc in
      if (n <? 10)%Z then acc' else digits_from k (n / 10) acc'
  end.

Definition decimal (n : Z) : list ascii :=
  digits_from (S (Z.to_nat (Z.log2 n))) n [].

Definition pow10 (f : nat) : number := inject_Z (10 ^ Z.of_nat f).

(** *** [Number.prototype.toFixed]

    ECMAScript 21.1.3.3 on the mathematical value of the number: the sign
    is taken off, [n] is the integer for which [n / 10^f - x] is closest to
    zero (the larger one of two), its digits are left-padded with zeros to
    [f + 1] characters and the point is put before the last [f].  (Above
    [10^21] ECMAScript switches to exponent notation, whose digits are
    those of the binary64 value; the model keeps the plain notation.) *)
Definition toFixed (x : number) (f : nat) : string :=
  let s := if ltb x 0 then ["-"%char] else [] in
  let x := if ltb x 0 then - x else x in
  let n := Qfloor (x * pow10 f + (1 # 2)) in
  let m := decimal n in
  let m :=
    if (f =? 0)%nat then m
    else
      let k := List.length m in
      let m := if (k <=? f)%nat then repeat "0"%char (f + 1 - k) ++ m else m in
      let k := List.length m in
      let a := firstn (k - f) m in
      let b := skipn (k - f) m in
      a ++ "."%char :: b in
  string_of_list_ascii (s ++ m).

(** *** [parseFloat]

    The longest prefix that is a decimal literal: an optional sign, digits,
    and optionally a point and digits; [None] stands for NaN (no digit at
    all).  Leading white space, exponents and [Infinity] are not modelled:
    no string produced by [toFixed] above has them. *)
Fixpoint scan (l : list ascii) (acc : Z) (cnt : nat) : Z * nat * list ascii :=
  match l with
  | c :: r =>
      if is_digit c then scan r (acc * 10 + digit_val c)%Z (S cnt)
      else (acc, cnt, l)
  | [] => (acc, cnt, [])
  end.

Definition parse_chars (l : list ascii) : option number :=
  let '(neg, l) :=
    match l with
    | c :: r =>
        if Ascii.eqb c "-" then (true, r)
        else if Ascii.eqb c "+" then (false, r)
        else (false, l)
    | [] => (false, l)
    end in
  let '(ip, ni, l) := scan l 0%Z 0%nat in
  let '(fp, nf, _) :=
    match l with
    | c :: r => if Ascii.eqb c "." then scan r 0%Z 0%nat else (0%Z, 0%nat, l)
    | [] => (0%Z, 0%nat, l)
    end in
  if (ni + nf =? 0)%nat then None
  else
    let v := inject_Z ip + inject_Z fp / pow10 nf in
    Some (if neg then - v else v).

Definition parseFloat (s : string) : option number :=
  parse_chars (list_ascii_of_string s).

(** *** [Array.prototype.sort] with a comparator

    The comparator returns a number or NaN ([None]); ECMAScript's
    SortCompare reads NaN as [+0].  The sort is stable (ES2019): the model
    is the stable insertion sort, which for a consistent comparator returns
    the one stable ordering. *)
Section Sort.
Context {A : Type} (comparefn : A -> A -> option number).

Definition SortCompare (x y : A) : number :=
  match comparefn x y with Some v => v | None => 0 end.

Fixpoint insert (x : A) (l : list A) : list A :=
  match l with
  | [] => [x]
  | y :: r => if leb (SortCompare x y) 0 then x :: y :: r else y :: insert x r
  end.

Definition Array_sort (l : list A) : list A := fold_right insert [] l.

(** [x] may stand before [y]: the comparator does not put it after. *)
Definition before (x y : A) : Prop := SortCompare x y <= 0.
End Sort.

End JS.

Import JS.

(** ** Data model *)

(** [Points]: point name to [[position]] or [[position, speed]]. *)
Definition Points := list (string * list number).

(** [AspectData], an entry of the catalog. *)
Record AspectData := mkAspectData {
  degree : number;
  orbit : number;
  color : string;
  lineStyle : string
}.

Definition Catalog := list (string * AspectData).

(** The part of [Partial<Settings>] the calculator reads. *)
Record Settings := mkSettings { ASPECTS : option Catalog }.

Record NamedPosition := mkNamedPosition {
  name : string;
  position : number
}.

Record FormedAspectKind := mkFormedAspectKind {
  aspect_name : string;
  aspect_degree : number;
  aspect_color : string;
  aspect_orbit : number;
  aspect_lineStyle : string
}.

Record FormedAspect := mkFormedAspect {
  point : NamedPosition;
  toPoint : NamedPosition;
  aspect : FormedAspectKind;
  precision : string
}.

Definition DEFAULT_ASPECTS : Catalog :=
  [ ("opposition"%string, mkAspectData 180 10 "#ff0000" "solid");
    ("square"%string, mkAspectData 90 8 "#ff0000" "short");
    ("trine"%string, mkAspectData 120 8 "#0000ff" "solid");
    ("sextile"%string, mkAspectData 60 8 "#0000ff" "short");
    ("quincunx"%string, mkAspectData 150 8 "#00ff00" "5,5");
    ("semisextile"%string, mkAspectData 30 8 "#00ff00" "2,2");
    ("semisquare"%string, mkAspectData 45 8 "#0000ff" "1,1");
    ("sesquisquare"%string, mkAspectData 135 8 "#0000ff" "6,2");
    ("conjunction"%string, mkAspectData 0 10 "transparent" "dashed") ].

(** The state of an [AspectCalculator]: [this.settings.ASPECTS], which the
    constructor always sets, and [this.toPoints].  ([this.context] is the
    object itself and is never read.) *)
Record AspectCalculator := mkAspectCalculator {
  settings_ASPECTS : Catalog;
  toPoints : Points
}.

(** Modelled from the spec: [radiansToDegree] of [./utils], which is not among
    the sources; the specification (6) has it express pi and 2 pi in degrees,
    180 and 360.  An angle in radians is given by its rational multiple of
    pi, so [Math_PI] is 1. *)
Definition Math_PI : number := 1.
Definition radiansToDegree (radians : number) : number := radians * 180.

(** ** The class *)

(** [new AspectCalculator(toPoints, settings)]; [None] is [null] or
    [undefined]. *)
Definition constructor (toPoints : option Points) (settings : option Settings)
  : string + AspectCalculator :=
  match toPoints with
  | None => inl "Param 'toPoint' must not be empty."%string
  | Some toPoints =>
      let ASPECTS :=
        match settings with
        | Some s => match ASPECTS s with Some a => a | None => DEFAULT_ASPECTS end
        | None => DEFAULT_ASPECTS
        end in
      inr (mkAspectCalculator ASPECTS toPoints)
  end.

Definition getToPoints (this : AspectCalculator) : Points := toPoints this.

Definition hasAspect (point toPoint : number) (aspect : AspectData) : bool :=
  let result := false in
  let gap := Math_abs (point - toPoint) in
  let gap :=
    if ltb (radiansToDegree Math_PI) gap
    then radiansToDegree (2 * Math_PI) - gap else gap in
  let orbitMin := degree aspect - (orbit aspect / 2) in
  let orbitMax := degree aspect + (orbit aspect / 2) in
  let result := if leb orbitMin gap && leb gap orbitMax then true else result in
  result.

Definition calcPrecision (point toPoint aspect : number) : number :=
  let gap := Math_abs (point - toPoint) in
  let gap :=
    if ltb (radiansToDegree Math_PI) gap
    then radiansToDegree (2 * Math_PI) - gap else gap in
  Math_abs (gap - aspect).

Definition isTransitPointApproachingToAspect (aspect toPoint point : number)
  : bool :=
  let '(point, toPoint) :=
    if ltb 0 (point - toPoint) then
      if ltb (radiansToDegree Math_PI) (point - toPoint)
      then (rem (point + aspect) (radiansToDegree (2 * Math_PI)), toPoint)
      else (point, rem (toPoint + aspect) (radiansToDegree (2 * Math_PI)))
    else
      if ltb (radiansToDegree Math_PI) (toPoint - point)
      then (point, rem (toPoint + aspect) (radiansToDegree (2 * Math_PI)))
      else (rem (point + aspect) (radiansToDegree (2 * Math_PI)), toPoint) in
  let _point := point in
  let _toPoint := toPoint in
  let difference := _point - _toPoint in
  let '(_point, _toPoint) :=
    if ltb (radiansToDegree Math_PI) (Math_abs difference)
    then (toPoint, point) else (_point, _toPoint) in
  ltb (_point - _toPoint) 0.

(** [parseFloat(a.precision) - parseFloat(b.precision)]; NaN when either
    string has no number. *)
Definition compareAspectsByPrecision (a b : FormedAspect) : option number :=
  match parseFloat (precision a), parseFloat (precision b) with
  | Some x, Some y => Some (x - y)
  | _, _ => None
  end.

(** [v[i]] of an array of numbers; [None] is [undefined]. *)
Definition index (v : list number) (i : nat) : option number := nth_error v i.

Definition formed (aspect : string) (data : AspectData)
    (point : string) (p : number) (toPoint : string) (t : number)
    (precision : string) : FormedAspect :=
  {| aspect := mkFormedAspectKind aspect (degree data) (color data)
                 (orbit data) (lineStyle data);
     point := mkNamedPosition point p;
     toPoint := mkNamedPosition toPoint t;
     precision := precision |}.

(** The body of the innermost loop of [radix] (lines 105-120).  A position
    that is [undefined] makes the gap NaN, both comparisons of [hasAspect]
    false, and nothing is pushed. *)
Definition radix_step (point : string) (pv : list number)
    (toPoint : string) (tv : list number)
    (aspect : string) (data : AspectData) : list FormedAspect :=
  match index pv 0, index tv 0 with
  | Some p, Some t =>
      if hasAspect p t data
      then [formed aspect data point p toPoint t
              (toFixed (calcPrecision p t (degree data)) 4)]
      else []
  | _, _ => []
  end.

Definition radix (this : AspectCalculator) (points : option Points)
  : list FormedAspect :=
  match points with
  | None => []
  | Some points =>
      let aspects :=
        flat_map (fun '(point, pv) =>
          flat_map (fun '(toPoint, tv) =>
            if negb (String.eqb point toPoint) then
              flat_map (fun '(aspect, data) =>
                radix_step point pv toPoint tv aspect data)
                (settings_ASPECTS this)
            else [])
            (toPoints this))
          points in
      Array_sort compareAspectsByPrecision aspects
  end.

(** [points[point][1] && points[point][1] < 0]: the speed is there, is not
    zero, and is negative. *)
Definition retrograde (pv : list number) : bool :=
  match index pv 1 with
  | Some speed => truthy speed && ltb speed 0
  | None => false
  end.

(** Lines 150-161: the precision, negated when the transiting point
    approaches, negated when it is retrograde. *)
Definition transit_precision (pv : list number) (p t : number)
    (data : AspectData) : number :=
  let precision := calcPrecision p t (degree data) in
  let precision :=
    if isTransitPointApproachingToAspect (degree data) t p
    then precision * -1 else precision in
  let precision := if retrograde pv then precision * -1 else precision in
  precision.

(** The body of the innermost loop of [transit] (lines 149-177). *)
Definition transit_step (point : string) (pv : list number)
    (toPoint : string) (tv : list number)
    (aspect : string) (data : AspectData) : list FormedAspect :=
  match index pv 0, index tv 0 with
  | Some p, Some t =>
      if hasAspect p t data
      then [formed aspect data point p toPoint t
              (toFixed (transit_precision pv p t data) 4)]
      else []
  | _, _ => []
  end.

Definition transit (this : AspectCalculator) (points : option Points)
  : list FormedAspect :=
  match points with
  | None => []
  | Some points =>
      let aspects :=
        flat_map (fun '(point, pv) =>
          flat_map (fun '(toPoint, tv) =>
            flat_map (fun '(aspect, data) =>
              transit_step point pv toPoint tv aspect data)
              (settings_ASPECTS this))
            (toPoints this))
          points in
      Array_sort compareAspectsByPrecision aspects
  end.

(** ** Derived notions used by the statements *)

(** The reduced gap as [hasAspect] (lines 196-200) and [calcPrecision]
    (lines 221-225) both compute it. *)
Definition reducedGap (point toPoint : number) : number :=
  let gap := Math_abs (point - toPoint) in
  if ltb (radiansToDegree Math_PI) gap
  then radiansToDegree (2 * Math_PI) - gap else gap.

(** The specification's wording (4.2): the angular distance along the shorter
    of the two arcs between the positions. *)
Definition shorterArc (a b : number) : number :=
  Qmin (Qabs (a - b)) (360 - Qabs (a - b)).

(** The specification's range of a position. *)
Definition in_circle (a : number) : Prop := 0 <= a /\ a < 360.

(** Rounding to four decimals, half away from zero: the number a string of
    [toFixed (_, 4)] denotes. *)
Definition round4 (x : number) : number :=
  let n := inject_Z (Qfloor (Qabs x * pow10 4 + (1 # 2))) / pow10 4 in
  if ltb x 0 then - n else n.

(** The number a list of digits denotes. *)
Definition dval (l : list ascii) : Z :=
  fold_left (fun acc c => (acc * 10 + digit_val c)%Z) l 0%Z.

(** The precision field read back as a number is [v]. *)
Definition precision_is (r : FormedAspect) (v : number) : Prop :=
  exists q, parseFloat (precision r) = Some q /\ q == v.

(** A sequence of records is in ascending order of the parsed precision:
    each record's precision is a number, not above the next one's. *)
Definition ascending (l : list FormedAspect) : Prop :=
  forall i a b,
    nth_error l i = Some a -> nth_error l (S i) = Some b ->
    exists x y, parseFloat (precision a) = Some x
                /\ parseFloat (precision b) = Some y /\ x <= y.

(** The catalog entry a record carries. *)
Definition data_of (r : FormedAspect) : AspectData :=
  mkAspectData (aspect_degree (aspect r)) (aspect_orbit (aspect r))
    (aspect_color (aspect r)) (aspect_lineStyle (aspect r)).

(** The unsigned precision of a record, from its positions and degree. *)
Definition unsigned_precision (r : FormedAspect) : number :=
  calcPrecision (position (point r)) (position (toPoint r))
    (aspect_degree (aspect r)).

(** ** The sign of a zero on binary64 values

    The exact model has one zero.  A binary64 product [0 * -1] is the negative
    zero; this module has the two negations of [transit] (lines 154-161) and
    [toFixed] on binary64 values, to check that the sign of a zero does not
    reach the precision string. *)
Module Binary64.

(** The mathematical value of a finite binary64 number; both zeros have
    value 0. *)
Definition value (x : float) : option Q :=
  match Prim2SF x with
  | S754_zero _ => Some 0
  | S754_finite s m e =>
      let v := inject_Z (Zpos m) * 2 ^ e in
      Some (if s then - v else v)
  | S754_infinity _ | S754_nan => None
  end.

(** [Number.prototype.toFixed]: a number that is not finite prints as
    [Number::toString] has it, a finite one through its mathematical value
    (steps 6 and 7 of ECMAScript 21.1.3.3). *)
Definition toFixed (x : float) (f : nat) : string :=
  match value x with
  | Some v => JS.toFixed v f
  | None =>
      match Prim2SF x with
      | S754_infinity true => "-Infinity"
      | S754_infinity false => "Infinity"
      | _ => "NaN"
      end
  end.

(** Lines 154-161 on a binary64 precision, given the outcome of the two
    tests. *)
Definition transit_sign (precision : float) (approaching retrograde : bool)
  : float :=
  let precision :=
    if approaching then PrimFloat.mul precision (-1)%float else precision in
  let precision :=
    if retrograde then PrimFloat.mul precision (-1)%float else precision in
  precision.

End Binary64.

(** ** The numeric methods on binary64 numbers

    Lines 193-261 once more, on the doubles the program computes with: every
    [+], [-], [*], [/] rounds to nearest, ties to even; comparisons with a
    NaN are false. *)
Module F64.
Local Open Scope float_scope.

Definition number := float.

(** A whole number as a double; exact below 2^53. *)
Definition of_Z (z : Z) : number :=
  match z with
  | Z0 => 0
  | Zpos _ => of_uint63 (Uint63Axioms.of_Z z)
  | Zneg p => - of_uint63 (Uint63Axioms.of_Z (Zpos p))
  end.

(** The [%] operator on doubles: the remainder of the truncated division,
    which is a double, so nothing is rounded; it has the sign of the
    dividend, and is NaN for an infinite dividend or a zero divisor. *)
Definition rem (x y : number) : number :=
  match Prim2SF x, Prim2SF y with
  | S754_nan, _ | _, S754_nan | S754_infinity _, _ | _, S754_zero _ => nan
  | _, S754_infinity _ | S754_zero _, _ => x
  | S754_finite sx mx ex, S754_finite _ my ey =>
      let e := Z.min ex ey in
      let X := (Zpos mx * 2 ^ (ex - e))%Z in
      let Y := (Zpos my * 2 ^ (ey - e))%Z in
      match (X mod Y)%Z with
      | Zpos r => SF2Prim (S754_finite sx r e)
      | _ => if sx then neg_zero else zero
      end
  end.

(** Modelled from the spec: [radiansToDegree] of [./utils], as in the exact
    model: an angle in radians is given by its multiple of pi, and pi and
    2 pi come out as 180 and 360. *)
Definition Math_PI : number := 1.
Definition radiansToDegree (radians : number) : number := radians * 180.

Record AspectData := mkAspectData {
  degree : number;
  orbit : number;
  color : string;
  lineStyle : string
}.

Definition hasAspect (point toPoint : number) (aspect : AspectData) : bool :=
  let result := false in
  let gap := abs (point - toPoint) in
  let gap :=
    if radiansToDegree Math_PI <? gap
    then radiansToDegree (2 * Math_PI) - gap else gap in
  let orbitMin := degree aspect - (orbit aspect / 2) in
  let orbitMax := degree aspect + (orbit aspect / 2) in
  let result :=
    if (orbitMin <=? gap) && (gap <=? orbitMax) then true else result in
  result.

Definition calcPrecision (point toPoint aspect : number) : number :=
  let gap := abs (point - toPoint) in
  let gap :=
    if radiansToDegree Math_PI <? gap
    then radiansToDegree (2 * Math_PI) - gap else gap in
  abs (gap - aspect).

Definition isTransitPointApproachingToAspect (aspect toPoint point : number)
  : bool :=
  let '(point, toPoint) :=
    if 0 <? point - toPoint then
      if radiansToDegree Math_PI <? point - toPoint
      then (rem (point + aspect) (radiansToDegree (2 * Math_PI)), toPoint)
      else (point, rem (toPoint + aspect) (radiansToDegree (2 * Math_PI)))
    else
      if radiansToDegree Math_PI <? toPoint - point
      then (point, rem (toPoint + aspect) (radiansToDegree (2 * Math_PI)))
      else (rem (point + aspect) (radiansToDegree (2 * Math_PI)), toPoint) in
  let _point := point in
  let _toPoint := toPoint in
  let difference := _point - _toPoint in
  let '(_point, _toPoint) :=
    if radiansToDegree Math_PI <? abs difference
    then (toPoint, point) else (_point, _toPoint) in
  _point - _toPoint <? 0.

(** The reduced gap as [hasAspect] and [calcPrecision] both compute it. *)
Definition reducedGap (point toPoint : number) : number :=
  let gap := abs (point - toPoint) in
  if radiansToDegree Math_PI <? gap
  then radiansToDegree (2 * Math_PI) - gap else gap.

(** The real number a finite double is, as a rational.  A double is
    [m * 2^e] with [e >= -1074], so its multiple by 2^1074 is a whole
    number: [sf_scaled] on the decoding, [scaled] on the double. *)
Definition sf_scaled (x : spec_float) : option Z :=
  match x with
  | S754_zero _ => Some 0%Z
  | S754_finite s m e =>
      let v := (2 ^ (e + 1074) * Zpos m)%Z in
      Some (if s then (- v)%Z else v)
  | S754_infinity _ | S754_nan => None
  end.

Definition scaled (x : number) : option Z := sf_scaled (Prim2SF x).

Definition real (x : number) : option Q :=
  match scaled x with
  | Some v => Some (inject_Z v / inject_Z (2 ^ 1074))%Q
  | None => None
  end.

End F64.

(** ** Whole numbers

    On whole numbers of the circle the doubles compute exactly.  The two
    definitions below are lines 196-200 and 235-261 in integer arithmetic;
    the statements on whole-number inputs compare [F64] with them. *)

Definition gapZ (point toPoint : Z) : Z :=
  let gap := Z.abs (point - toPoint) in
  if (180 <? gap)%Z then (360 - gap)%Z else gap.

Definition approachZ (aspect toPoint point : Z) : bool :=
  let '(point, toPoint) :=
    if (0 <? point - toPoint)%Z then
      if (180 <? point - toPoint)%Z
      then (Z.rem (point + aspect) 360, toPoint)
      else (point, Z.rem (toPoint + aspect) 360)
    else
      if (180 <? toPoint - point)%Z
      then (point, Z.rem (toPoint + aspect) 360)
      else (Z.rem (point + aspect) 360, toPoint) in
  let difference := (point - toPoint)%Z in
  let '(_point, _toPoint) :=
    if (180 <? Z.abs difference)%Z
    then (toPoint, point) else (point, toPoint) in
  (_point - _toPoint <? 0)%Z.

(** The whole numbers [lo], ..., [lo + n - 1]. *)
Definition range (lo : Z) (n : nat) : list Z :=
  map (fun i => (lo + Z.of_nat i)%Z) (seq 0 n).

(** ** The loop guard

    [points.hasOwnProperty(point)] (lines 100, 102, 145, 147) looks the
    method up on the object itself: a set with a key of that name answers
    with the array stored there, and calling it throws a TypeError.
    [radix] and [transit] above are the calls on sets without such a key. *)
Definition guard_safe (o : Points) : Prop :=
  forall v, ~ In ("hasOwnProperty"%string, v) o.

(** The keys of an object are distinct. *)
Definition distinct_keys {V : Type} (o : list (string * V)) : Prop :=
  NoDup (map fst o).

(** ** Comparisons and constants *)

Lemma ltb_lt (x y : number) : ltb x y = true <-> x < y.
Proof. unfold ltb, Qlt. apply Z.ltb_lt. Qed.

Lemma ltb_ge (x y : number) : ltb x y = false <-> y <= x.
Proof. unfold ltb, Qle. apply Z.ltb_ge. Qed.

Lemma leb_le (x y : number) : leb x y = true <-> x <= y.
Proof. apply Qle_bool_iff. Qed.

Lemma leb_gt (x y : number) : leb x y = false <-> y < x.
Proof.
  split; intro H.
  - apply Qnot_le_lt. intro L. apply leb_le in L. congruence.
  - destruct (leb x y) eqn:E; [ apply leb_le in E; lra | reflexivity ].
Qed.

Lemma half_turn : radiansToDegree Math_PI == 180.
Proof. reflexivity. Qed.

Lemma full_turn : radiansToDegree (2 * Math_PI) == 360.
Proof. reflexivity. Qed.

Lemma Qabs_cases (x : Q) : (0 <= x /\ Qabs x == x) \/ (x <= 0 /\ Qabs x == - x).
Proof.
  destruct (Qlt_le_dec x 0) as [L | L].
  - right. split; [ lra | apply Qabs_neg; lra ].
  - left. split; [ assumption | apply Qabs_pos; assumption ].
Qed.

(** ** The reduced gap *)

Lemma hasAspect_reducedGap (p t : number) (a : AspectData) :
  hasAspect p t a =
  leb (degree a - orbit a / 2) (reducedGap p t)
  && leb (reducedGap p t) (degree a + orbit a / 2).
Proof.
  unfold hasAspect, reducedGap.
  destruct (leb _ _ && leb _ _); reflexivity.
Qed.

Lemma calcPrecision_reducedGap (p t d : number) :
  calcPrecision p t d = Math_abs (reducedGap p t - d).
Proof. reflexivity. Qed.

Lemma reducedGap_cases (p t : number) :
  (Qabs (p - t) <= 180 /\ reducedGap p t == Qabs (p - t))
  \/ (180 < Qabs (p - t) /\ reducedGap p t == 360 - Qabs (p - t)).
Proof.
  unfold reducedGap, Math_abs.
  destruct (ltb (radiansToDegree Math_PI) (Qabs (p - t))) eqn:E.
  - apply ltb_lt in E. rewrite half_turn in E. right. split; [ exact E | ].
    rewrite full_turn. reflexivity.
  - apply ltb_ge in E. rewrite half_turn in E. left. split; [ exact E | reflexivity ].
Qed.

Lemma reducedGap_shorterArc (p t : number) : reducedGap p t == shorterArc p t.
Proof.
  unfold shorterArc.
  destruct (reducedGap_cases p t) as [[L E] | [L E]]; rewrite E.
  - symmetry. apply Q.min_l. lra.
  - symmetry. apply Q.min_r. lra.
Qed.

Lemma reducedGap_sym (a b : number) : reducedGap a b == reducedGap b a.
Proof.
  assert (S : Qabs (a - b) == Qabs (b - a)).
  { setoid_replace (a - b) with (- (b - a)) by ring. apply Qabs_opp. }
  destruct (reducedGap_cases a b) as [[L E] | [L E]];
    destruct (reducedGap_cases b a) as [[L' E'] | [L' E']]; lra.
Qed.

(** ** The remainder *)

Lemma truncate_floor (q : number) : 0 <= q -> truncate q = Qfloor q.
Proof.
  destruct q as [n d]. unfold truncate, Qfloor, Qle. simpl. intro H.
  apply Z.quot_div_nonneg; lia.
Qed.

Lemma Qfloor_unique (q : Q) (k : Z) :
  inject_Z k <= q -> q < inject_Z (k + 1) -> Qfloor q = k.
Proof.
  intros L U.
  pose proof (Qfloor_le q) as F.
  pose proof (Qlt_floor q) as G.
  assert (A : inject_Z (Qfloor q) < inject_Z (k + 1)) by lra.
  assert (B : inject_Z k < inject_Z (Qfloor q + 1)) by lra.
  rewrite <- Zlt_Qlt in A, B. lia.
Qed.

Lemma rem_range (x y : number) (k : Z) :
  0 < y -> (0 <= k)%Z ->
  inject_Z k * y <= x -> x < inject_Z (k + 1) * y ->
  rem x y == x - y * inject_Z k.
Proof.
  intros Hy Hk L U. unfold rem.
  assert (K : inject_Z 0 <= inject_Z k) by (rewrite <- Zle_Qle; exact Hk).
  change (inject_Z 0) with 0 in K.
  assert (Q0 : inject_Z k <= x / y) by (apply Qle_shift_div_l; assumption).
  assert (Q1 : x / y < inject_Z (k + 1)) by (apply Qlt_shift_div_r; assumption).
  rewrite truncate_floor by lra.
  rewrite (Qfloor_unique _ k Q0 Q1). reflexivity.
Qed.

Lemma rem_small (x : number) : 0 <= x -> x < 360 -> rem x 360 == x.
Proof.
  intros L U.
  assert (H : rem x 360 == x - 360 * inject_Z 0).
  { apply rem_range; [ lra | lia | | ].
    - change (inject_Z 0) with 0. lra.
    - change (inject_Z (0 + 1)) with 1. lra. }
  rewrite H. change (inject_Z 0) with 0. ring.
Qed.

Lemma rem_once (x : number) : 360 <= x -> x < 720 -> rem x 360 == x - 360.
Proof.
  intros L U.
  assert (H : rem x 360 == x - 360 * inject_Z 1).
  { apply rem_range; [ lra | lia | | ].
    - change (inject_Z 1) with 1. lra.
    - change (inject_Z (1 + 1)) with 2. lra. }
  rewrite H. change (inject_Z 1) with 1. ring.
Qed.

(** ** Approach direction at equal positions *)


(** ** Swapping and turning the angles *)

(** C4, the claim as stated fails: a full turn added to the larger angle
    makes the reduced gap negative. *)
Lemma reducedGap_full_turn_differs :
  ~ reducedGap (10 + 360) 0 == reducedGap 10 0.
Proof. intro H. vm_compute in H. discriminate H. Qed.

(** ** Decimal digits: printing and reading back *)

Lemma digit_val_digit (d : Z) : (0 <= d < 10)%Z -> digit_val (digit d) = d.
Proof.
  intro H. unfold digit_val, digit.
  rewrite nat_ascii_embedding by lia. lia.
Qed.

Lemma is_digit_digit (d : Z) : (0 <= d < 10)%Z -> is_digit (digit d) = true.
Proof.
  intro H. unfold is_digit, digit.
  rewrite nat_ascii_embedding by lia.
  apply andb_true_iff. split; apply Nat.leb_le; lia.
Qed.

Lemma fold_digits_acc (l : list ascii) (acc : Z) :
  fold_left (fun acc c => (acc * 10 + digit_val c)%Z) l acc
  = (acc * 10 ^ Z.of_nat (List.length l) + dval l)%Z.
Proof.
  revert acc. induction l as [| c l IH]; intro acc.
  - unfold dval. simpl. lia.
  - change (fold_left (fun acc c => (acc * 10 + digit_val c)%Z) (c :: l) acc)
      with (fold_left (fun acc c => (acc * 10 + digit_val c)%Z) l
              (acc * 10 + digit_val c)%Z).
    change (dval (c :: l))
      with (fold_left (fun acc c => (acc * 10 + digit_val c)%Z) l
              (0 * 10 + digit_val c)%Z).
    rewrite (IH (acc * 10 + digit_val c)%Z), (IH (0 * 10 + digit_val c)%Z).
    change (List.length (c :: l)) with (S (List.length l)).
    rewrite Nat2Z.inj_succ, Z.pow_succ_r by lia. ring.
Qed.

Lemma dval_app (a b : list ascii) :
  dval (a ++ b) = (dval a * 10 ^ Z.of_nat (List.length b) + dval b)%Z.
Proof.
  unfold dval at 1. rewrite fold_left_app.
  fold (dval a). apply fold_digits_acc.
Qed.

Lemma dval_zeros (j : nat) (l : list ascii) :
  dval (repeat "0"%char j ++ l) = dval l.
Proof.
  rewrite dval_app.
  assert (Z0 : dval (repeat "0"%char j) = 0%Z).
  { induction j as [| j IH]; [ reflexivity | ].
    change (repeat "0"%char (S j)) with (["0"%char] ++ repeat "0"%char j).
    rewrite dval_app, IH. reflexivity. }
  rewrite Z0. lia.
Qed.

Lemma scan_digits (ds rest : list ascii) (acc : Z) (cnt : nat) :
  Forall (fun c => is_digit c = true) ds ->
  match rest with [] => True | c :: _ => is_digit c = false end ->
  scan (ds ++ rest) acc cnt
  = ((acc * 10 ^ Z.of_nat (List.length ds) + dval ds)%Z,
      (cnt + List.length ds)%nat, rest).
Proof.
  intros D R. revert acc cnt.
  induction D as [| c ds Hc D IH]; intros acc cnt.
  - simpl app. simpl List.length. rewrite Nat.add_0_r.
    replace (acc * 10 ^ Z.of_nat 0 + dval [])%Z with acc
      by (unfold dval; simpl; lia).
    destruct rest as [| c r]; [ reflexivity | ].
    simpl. rewrite R. reflexivity.
  - simpl app. simpl scan. rewrite Hc, IH.
    change (c :: ds) with ([c] ++ ds). rewrite dval_app.
    simpl List.length. rewrite Nat2Z.inj_succ, Z.pow_succ_r by lia.
    assert (V : dval [c] = digit_val c) by (unfold dval; simpl; lia).
    rewrite V. f_equal. f_equal; [ ring | lia ].
Qed.

Lemma scan_all_digits (ds : list ascii) (acc : Z) (cnt : nat) :
  Forall (fun c => is_digit c = true) ds ->
  scan ds acc cnt
  = ((acc * 10 ^ Z.of_nat (List.length ds) + dval ds)%Z,
      (cnt + List.length ds)%nat, []).
Proof.
  intro D. rewrite <- (scan_digits ds [] acc cnt D I), app_nil_r. reflexivity.
Qed.

(** With fuel above the binary logarithm, [digits_from] puts the digits of
    [n] in front of the accumulator: at least one, and they read back [n]. *)
Lemma digits_from_spec (k : nat) (n : Z) (acc : list ascii) :
  (0 <= n < 2 ^ Z.of_nat (S k))%Z ->
  exists ds, digits_from (S k) n acc = ds ++ acc
             /\ Forall (fun c => is_digit c = true) ds
             /\ dval ds = n /\ ds <> [].
Proof.
  revert n acc. induction k as [| k IH]; intros n acc H.
  - exists [digit n].
    assert (n < 10)%Z by (change (2 ^ Z.of_nat 1)%Z with 2%Z in H; lia).
    simpl digits_from. rewrite Z.mod_small by lia.
    replace (n <? 10)%Z with true by (symmetry; apply Z.ltb_lt; lia).
    repeat split.
    + constructor; [ apply is_digit_digit; lia | constructor ].
    + unfold dval. simpl. rewrite digit_val_digit; lia.
    + discriminate.
  - assert (M : (0 <= n mod 10 < 10)%Z) by (apply Z.mod_pos_bound; lia).
    change (digits_from (S (S k)) n acc)
      with (if (n <? 10)%Z then digit (n mod 10) :: acc
            else digits_from (S k) (n / 10) (digit (n mod 10) :: acc)).
    destruct (n <? 10)%Z eqn:E.
    + apply Z.ltb_lt in E. exists [digit (n mod 10)].
      rewrite Z.mod_small by lia. repeat split.
      * constructor; [ apply is_digit_digit; lia | constructor ].
      * unfold dval. simpl. rewrite digit_val_digit; lia.
      * discriminate.
    + apply Z.ltb_ge in E.
      destruct (IH (n / 10)%Z (digit (n mod 10) :: acc)) as (ds & E1 & D & V & _).
      { rewrite Nat2Z.inj_succ, Z.pow_succ_r in H by lia.
        split; [ apply Z.div_pos; lia | ].
        apply Z.div_lt_upper_bound; lia. }
      exists (ds ++ [digit (n mod 10)]). repeat split.
      * rewrite E1, <- app_assoc. reflexivity.
      * apply Forall_app. split; [ exact D | ].
        constructor; [ apply is_digit_digit; lia | constructor ].
      * rewrite dval_app, V. unfold dval at 1. simpl.
        rewrite digit_val_digit by lia.
        pose proof (Z.div_mod n 10). lia.
      * intro Hnil. apply app_eq_nil in Hnil. destruct Hnil. discriminate.
Qed.

Lemma decimal_spec (n : Z) :
  (0 <= n)%Z ->
  Forall (fun c => is_digit c = true) (decimal n)
  /\ dval (decimal n) = n /\ decimal n <> [].
Proof.
  intro H. unfold decimal.
  destruct (digits_from_spec (Z.to_nat (Z.log2 n)) n []) as (ds & E & D & V & N).
  - rewrite Nat2Z.inj_succ, Z2Nat.id by apply Z.log2_nonneg.
    split; [ exact H | ].
    destruct (Z.eq_dec n 0) as [-> | Hn]; [ reflexivity | ].
    apply Z.log2_spec. lia.
  - rewrite E, app_nil_r. auto.
Qed.

Lemma digit_not_mark (c : ascii) :
  is_digit c = true ->
  Ascii.eqb c "-" = false /\ Ascii.eqb c "+" = false /\ Ascii.eqb c "." = false.
Proof.
  intro H. repeat split;
    match goal with
    | |- Ascii.eqb c ?m = false =>
        destruct (Ascii.eqb_spec c m) as [-> | _];
        [ vm_compute in H; discriminate H | reflexivity ]
    end.
Qed.

Lemma pow10_pos (f : nat) : 0 < pow10 f.
Proof.
  unfold pow10. change 0 with (inject_Z 0). rewrite <- Zlt_Qlt.
  apply Z.pow_pos_nonneg; lia.
Qed.

(** Digits, a point, digits: the number read is the one written. *)
Lemma parse_unsigned (a b : list ascii) :
  Forall (fun c => is_digit c = true) a ->
  Forall (fun c => is_digit c = true) b ->
  a <> [] ->
  exists q, parse_chars (a ++ "."%char :: b) = Some q
            /\ q == inject_Z (dval (a ++ b)) / pow10 (List.length b).
Proof.
  intros Da Db Na.
  destruct a as [| c a']; [ contradiction | ].
  destruct (digit_not_mark c) as (M1 & M2 & _); [ inversion Da; assumption | ].
  unfold parse_chars.
  change ((c :: a') ++ "."%char :: b) with (c :: a' ++ "."%char :: b).
  cbv beta iota. rewrite M1, M2.
  change (c :: a' ++ "."%char :: b) with ((c :: a') ++ "."%char :: b).
  rewrite (scan_digits (c :: a') ("."%char :: b) 0 0 Da) by reflexivity.
  change (Ascii.eqb "." ".") with true. cbv iota.
  rewrite (scan_all_digits b 0 0 Db).
  simpl Nat.add. simpl Nat.eqb. cbv iota zeta.
  eexists. split; [ reflexivity | ].
  rewrite dval_app, !Z.mul_0_l, !Z.add_0_l.
  unfold pow10. rewrite inject_Z_plus, inject_Z_mult.
  pose proof (pow10_pos (List.length b)) as P. unfold pow10 in P.
  field. lra.
Qed.

Lemma parse_signed (a b : list ascii) :
  Forall (fun c => is_digit c = true) a ->
  Forall (fun c => is_digit c = true) b ->
  a <> [] ->
  exists q, parse_chars ("-"%char :: a ++ "."%char :: b) = Some q
            /\ q == - (inject_Z (dval (a ++ b)) / pow10 (List.length b)).
Proof.
  intros Da Db Na.
  unfold parse_chars.
  change (Ascii.eqb "-" "-") with true. cbv iota.
  rewrite (scan_digits a ("."%char :: b) 0 0 Da) by reflexivity.
  change (Ascii.eqb "." ".") with true. cbv iota.
  rewrite (scan_all_digits b 0 0 Db).
  destruct a as [| c a']; [ contradiction | ].
  simpl Nat.add. simpl Nat.eqb. cbv iota zeta.
  eexists. split; [ reflexivity | ].
  rewrite dval_app, !Z.mul_0_l, !Z.add_0_l.
  unfold pow10. rewrite inject_Z_plus, inject_Z_mult.
  pose proof (pow10_pos (List.length b)) as P. unfold pow10 in P.
  field. lra.
Qed.

(** ** [toFixed] and [parseFloat] *)

Lemma unsigned_nonneg (x : number) : 0 <= (if ltb x 0 then - x else x).
Proof. destruct (ltb x 0) eqn:E; [ apply ltb_lt in E | apply ltb_ge in E ]; lra. Qed.

Lemma unsigned_abs (x : number) : (if ltb x 0 then - x else x) == Qabs x.
Proof.
  destruct (ltb x 0) eqn:E; [ apply ltb_lt in E | apply ltb_ge in E ].
  - symmetry. apply Qabs_neg. lra.
  - symmetry. apply Qabs_pos. lra.
Qed.

Lemma rounded_nonneg (y : number) (f : nat) :
  0 <= y -> (0 <= Qfloor (y * pow10 f + (1 # 2)))%Z.
Proof.
  intro H. pose proof (pow10_pos f) as P.
  assert (N : 0 <= y * pow10 f) by (apply Qmult_le_0_compat; lra).
  change 0%Z with (Qfloor 0). apply Qfloor_resp_le. lra.
Qed.

(** The string of [toFixed]: the sign, at least one digit, the point and [f]
    digits, which together are the digits of the rounded number. *)
Lemma toFixed_shape (x : number) (f : nat) :
  f <> 0%nat ->
  exists a b,
    toFixed x f
    = string_of_list_ascii
        ((if ltb x 0 then ["-"%char] else []) ++ a ++ "."%char :: b)
    /\ Forall (fun c => is_digit c = true) a
    /\ Forall (fun c => is_digit c = true) b
    /\ a <> [] /\ List.length b = f
    /\ dval (a ++ b)
       = Qfloor ((if ltb x 0 then - x else x) * pow10 f + (1 # 2)).
Proof.
  intro Hf. unfold toFixed.
  set (n := Qfloor ((if ltb x 0 then - x else x) * pow10 f + (1 # 2))).
  destruct (decimal_spec n) as (D & V & N).
  { apply rounded_nonneg, unsigned_nonneg. }
  replace (f =? 0)%nat with false by (symmetry; apply Nat.eqb_neq; exact Hf).
  set (m := if (List.length (decimal n) <=? f)%nat
            then repeat "0"%char (f + 1 - List.length (decimal n)) ++ decimal n
            else decimal n).
  assert (Dm : Forall (fun c => is_digit c = true) m).
  { subst m. destruct (List.length (decimal n) <=? f)%nat; [ | exact D ].
    apply Forall_app. split; [ | exact D ].
    apply Forall_forall. intros c Hc. apply repeat_spec in Hc. subst c.
    reflexivity. }
  assert (Vm : dval m = n).
  { subst m. destruct (List.length (decimal n) <=? f)%nat; [ | exact V ].
    rewrite dval_zeros. exact V. }
  assert (Lm : (f < List.length m)%nat).
  { subst m. destruct (List.length (decimal n) <=? f)%nat eqn:E.
    - apply Nat.leb_le in E. rewrite length_app, repeat_length. lia.
    - apply Nat.leb_gt in E. exact E. }
  cbv zeta.
  exists (firstn (List.length m - f) m), (skipn (List.length m - f) m).
  pose proof (firstn_skipn (List.length m - f) m) as FS.
  rewrite <- FS in Dm. apply Forall_app in Dm. destruct Dm as [Da Db].
  repeat split.
  - exact Da.
  - exact Db.
  - intro E. apply (f_equal (@List.length ascii)) in E.
    rewrite length_firstn in E. simpl in E. lia.
  - rewrite length_skipn. lia.
  - rewrite FS. exact Vm.
Qed.

(** Reading back the string of [toFixed]. *)
Lemma parseFloat_toFixed (x : number) (f : nat) :
  f <> 0%nat ->
  exists q,
    parseFloat (toFixed x f) = Some q
    /\ q == (if ltb x 0 then - 1 else 1)
            * (inject_Z (Qfloor (Qabs x * pow10 f + (1 # 2))) / pow10 f).
Proof.
  intro Hf.
  destruct (toFixed_shape x f Hf) as (a & b & E & Da & Db & Na & Lb & V).
  assert (W : Qfloor ((if ltb x 0 then - x else x) * pow10 f + (1 # 2))
              = Qfloor (Qabs x * pow10 f + (1 # 2))).
  { apply Qfloor_comp. rewrite unsigned_abs. reflexivity. }
  rewrite W in V. clear W.
  unfold parseFloat. rewrite E, list_ascii_of_string_of_list_ascii.
  destruct (ltb x 0).
  - destruct (parse_signed a b Da Db Na) as (q & P & Q).
    exists q. split; [ exact P | ].
    rewrite Q, V, Lb. pose proof (pow10_pos f). field. lra.
  - destruct (parse_unsigned a b Da Db Na) as (q & P & Q).
    exists q. split; [ exact P | ].
    rewrite Q, V, Lb. pose proof (pow10_pos f). field. lra.
Qed.

Lemma parseFloat_toFixed4 (x : number) :
  exists q, parseFloat (toFixed x 4) = Some q /\ q == round4 x.
Proof.
  destruct (parseFloat_toFixed x 4) as (q & P & Q); [ discriminate | ].
  exists q. split; [ exact P | ].
  rewrite Q. unfold round4. destruct (ltb x 0); ring.
Qed.

(** A number that is zero prints without a sign. *)
Lemma toFixed_zero (x : number) : x == 0 -> toFixed x 4 = "0.0000"%string.
Proof.
  intro H. unfold toFixed.
  replace (ltb x 0) with false by (symmetry; apply ltb_ge; lra).
  assert (N : Qfloor (x * pow10 4 + (1 # 2)) = 0%Z).
  { transitivity (Qfloor (1 # 2)); [ | reflexivity ].
    apply Qfloor_comp. rewrite H. reflexivity. }
  rewrite N. reflexivity.
Qed.

(** ** Sorting *)

Section SortFacts.
Context {A : Type} (comparefn : A -> A -> option number).

Hypothesis consistent :
  forall x y, 0 < SortCompare comparefn x y -> SortCompare comparefn y x <= 0.

Lemma In_insert (z x : A) (l : list A) :
  In z (insert comparefn x l) <-> z = x \/ In z l.
Proof.
  induction l as [| y l IH]; simpl.
  - intuition congruence.
  - destruct (leb (SortCompare comparefn x y) 0); simpl.
    + intuition congruence.
    + rewrite IH. intuition congruence.
Qed.

Lemma In_Array_sort (z : A) (l : list A) :
  In z (Array_sort comparefn l) <-> In z l.
Proof.
  induction l as [| x l IH]; simpl; [ tauto | ].
  rewrite In_insert, IH. intuition congruence.
Qed.

Lemma HdRel_insert (a x : A) (l : list A) :
  HdRel (before comparefn) a l -> before comparefn a x ->
  HdRel (before comparefn) a (insert comparefn x l).
Proof.
  intros H R. destruct l as [| y l]; simpl.
  - constructor. exact R.
  - destruct (leb (SortCompare comparefn x y) 0); constructor.
    + exact R.
    + inversion H. assumption.
Qed.

Lemma Sorted_insert (x : A) (l : list A) :
  Sorted (before comparefn) l -> Sorted (before comparefn) (insert comparefn x l).
Proof.
  induction 1 as [| y l S IH H]; simpl.
  - repeat constructor.
  - destruct (leb (SortCompare comparefn x y) 0) eqn:E.
    + apply leb_le in E. repeat constructor; assumption.
    + apply leb_gt in E. constructor; [ exact IH | ].
      apply HdRel_insert; [ exact H | ]. apply consistent. exact E.
Qed.

Lemma Sorted_Array_sort (l : list A) :
  Sorted (before comparefn) (Array_sort comparefn l).
Proof.
  induction l as [| x l IH]; simpl; [ constructor | ].
  apply Sorted_insert. exact IH.
Qed.

Lemma Sorted_consecutive (l : list A) (i : nat) (a b : A) :
  Sorted (before comparefn) l ->
  nth_error l i = Some a -> nth_error l (S i) = Some b ->
  SortCompare comparefn a b <= 0.
Proof.
  intro S. revert i. induction S as [| y l S IH H]; intros i Ha Hb.
  - destruct i; discriminate.
  - destruct i as [| i].
    + simpl in Ha. injection Ha as ->.
      destruct l as [| z l]; [ discriminate | ].
      simpl in Hb. injection Hb as ->. inversion H. assumption.
    + apply (IH i); assumption.
Qed.
End SortFacts.

Lemma compareAspectsByPrecision_consistent (x y : FormedAspect) :
  0 < SortCompare compareAspectsByPrecision x y ->
  SortCompare compareAspectsByPrecision y x <= 0.
Proof.
  unfold SortCompare, compareAspectsByPrecision.
  destruct (parseFloat (precision x)), (parseFloat (precision y)); lra.
Qed.

(** Sorting by [compareAspectsByPrecision] records whose precision is a
    number puts them in ascending order of it. *)
Lemma sort_ascending (l : list FormedAspect) :
  (forall r, In r l -> exists q, parseFloat (precision r) = Some q) ->
  ascending (Array_sort compareAspectsByPrecision l).
Proof.
  intros P i a b Ha Hb.
  pose proof (Sorted_consecutive compareAspectsByPrecision _ i a b
                (Sorted_Array_sort compareAspectsByPrecision
                   compareAspectsByPrecision_consistent l) Ha Hb) as C.
  destruct (P a) as (x & Px).
  { apply (In_Array_sort compareAspectsByPrecision). eapply nth_error_In, Ha. }
  destruct (P b) as (y & Py).
  { apply (In_Array_sort compareAspectsByPrecision). eapply nth_error_In, Hb. }
  exists x, y. repeat split; [ exact Px | exact Py | ].
  unfold SortCompare, compareAspectsByPrecision in C.
  rewrite Px, Py in C. lra.
Qed.

(** ** Where a record comes from *)

Lemma radix_In (this : AspectCalculator) (points : Points) (r : FormedAspect) :
  In r (radix this (Some points)) ->
  exists point pv toPoint tv aspect data p t,
    In (point, pv) points /\ In (toPoint, tv) (toPoints this)
    /\ In (aspect, data) (settings_ASPECTS this)
    /\ point <> toPoint
    /\ index pv 0 = Some p /\ index tv 0 = Some t
    /\ hasAspect p t data = true
    /\ r = formed aspect data point p toPoint t
             (toFixed (calcPrecision p t (degree data)) 4).
Proof.
  unfold radix. rewrite In_Array_sort.
  intro H.
  apply in_flat_map in H. destruct H as ([point pv] & Hp & H).
  apply in_flat_map in H. destruct H as ([toPoint tv] & Ht & H).
  destruct (String.eqb_spec point toPoint) as [E | N]; [ contradiction | ].
  simpl negb in H. cbv iota in H.
  apply in_flat_map in H. destruct H as ([aspect data] & Ha & H).
  unfold radix_step in H.
  destruct (index pv 0) as [p |] eqn:Ip; [ | contradiction ].
  destruct (index tv 0) as [t |] eqn:It; [ | contradiction ].
  destruct (hasAspect p t data) eqn:Has; [ | contradiction ].
  destruct H as [<- | []].
  exists point, pv, toPoint, tv, aspect, data, p, t.
  repeat split; try assumption; reflexivity.
Qed.

Lemma transit_In (this : AspectCalculator) (points : Points) (r : FormedAspect) :
  In r (transit this (Some points)) ->
  exists point pv toPoint tv aspect data p t,
    In (point, pv) points /\ In (toPoint, tv) (toPoints this)
    /\ In (aspect, data) (settings_ASPECTS this)
    /\ index pv 0 = Some p /\ index tv 0 = Some t
    /\ hasAspect p t data = true
    /\ r = formed aspect data point p toPoint t
             (toFixed (transit_precision pv p t data) 4).
Proof.
  unfold transit. rewrite In_Array_sort.
  intro H.
  apply in_flat_map in H. destruct H as ([point pv] & Hp & H).
  apply in_flat_map in H. destruct H as ([toPoint tv] & Ht & H).
  apply in_flat_map in H. destruct H as ([aspect data] & Ha & H).
  unfold transit_step in H.
  destruct (index pv 0) as [p |] eqn:Ip; [ | contradiction ].
  destruct (index tv 0) as [t |] eqn:It; [ | contradiction ].
  destruct (hasAspect p t data) eqn:Has; [ | contradiction ].
  destruct H as [<- | []].
  exists point, pv, toPoint, tv, aspect, data, p, t.
  repeat split; try assumption; reflexivity.
Qed.

(** ** The precision of a formed aspect *)

Lemma hasAspect_precision (p t : number) (data : AspectData) :
  hasAspect p t data = true ->
  0 <= calcPrecision p t (degree data)
  /\ calcPrecision p t (degree data) <= orbit data / 2.
Proof.
  rewrite hasAspect_reducedGap, calcPrecision_reducedGap, andb_true_iff, !leb_le.
  unfold Math_abs. intros [L U].
  destruct (Qabs_cases (reducedGap p t - degree data)) as [[S V] | [S V]];
    rewrite V; split; lra.
Qed.

Lemma round4_abs (x : number) :
  Qabs (round4 x) == inject_Z (Qfloor (Qabs x * pow10 4 + (1 # 2))) / pow10 4.
Proof.
  unfold round4.
  set (n := inject_Z (Qfloor (Qabs x * pow10 4 + (1 # 2))) / pow10 4).
  assert (N : 0 <= n).
  { subst n. apply Qle_shift_div_l; [ apply pow10_pos | ].
    rewrite Qmult_0_l. change 0 with (inject_Z 0). rewrite <- Zle_Qle.
    apply rounded_nonneg, Qabs_nonneg. }
  destruct (ltb x 0).
  - rewrite Qabs_opp. apply Qabs_pos. exact N.
  - apply Qabs_pos. exact N.
Qed.

(** Rounding to four decimals moves a number by at most half a unit of the
    last place, and not across a multiple of that unit. *)
Lemma round4_bounds (x : number) :
  0 <= Qabs (round4 x)
  /\ Qabs (round4 x) <= Qabs x + (1 # 20000)
  /\ (forall k : Z, Qabs x <= inject_Z k / 10000 ->
                    Qabs (round4 x) <= inject_Z k / 10000).
Proof.
  pose proof (round4_abs x) as R. change (pow10 4) with 10000 in R.
  set (r := Qabs (round4 x)) in *. clearbody r.
  set (y := Qabs x * 10000 + (1 # 2)) in *.
  pose proof (Qfloor_le y) as F.
  pose proof (Qabs_nonneg x) as A.
  assert (N : (0 <= Qfloor y)%Z).
  { change 0%Z with (Qfloor 0). apply Qfloor_resp_le. subst y. lra. }
  rewrite Zle_Qle in N. change (inject_Z 0) with 0 in N.
  repeat split.
  - rewrite R. apply Qle_shift_div_l; lra.
  - rewrite R. apply Qle_shift_div_r; [ lra | ]. subst y. lra.
  - intros k K. rewrite R.
    assert (Y : y < inject_Z (k + 1)).
    { rewrite inject_Z_plus. change (inject_Z 1) with 1. subst y.
      assert (Qabs x * 10000 <= inject_Z k); [ | lra ].
      setoid_replace (inject_Z k) with (inject_Z k / 10000 * 10000) by field.
      apply Qmult_le_compat_r; lra. }
    assert (Z : (Qfloor y <= k)%Z).
    { assert (L : inject_Z (Qfloor y) < inject_Z (k + 1)) by lra.
      rewrite <- Zlt_Qlt in L. lia. }
    rewrite Zle_Qle in Z.
    apply Qle_shift_div_r; [ lra | ].
    setoid_replace (inject_Z k / 10000 * 10000) with (inject_Z k) by field.
    exact Z.
Qed.

Lemma round4_comp (x y : number) :
  Qabs x == Qabs y -> Qabs (round4 x) == Qabs (round4 y).
Proof.
  intro E. rewrite !round4_abs.
  assert (W : Qfloor (Qabs x * pow10 4 + (1 # 2))
              = Qfloor (Qabs y * pow10 4 + (1 # 2))).
  { apply Qfloor_comp. rewrite E. reflexivity. }
  rewrite W. reflexivity.
Qed.

(** The two negations of [transit]: the value is the unsigned precision, or
    its opposite when exactly one of the tests holds. *)
Lemma transit_precision_value (pv : list number) (p t : number)
    (data : AspectData) :
  transit_precision pv p t data
  == (if xorb (isTransitPointApproachingToAspect (degree data) t p)
               (retrograde pv)
      then - calcPrecision p t (degree data)
      else calcPrecision p t (degree data)).
Proof.
  unfold transit_precision.
  destruct (isTransitPointApproachingToAspect (degree data) t p),
    (retrograde pv); simpl xorb; cbv iota zeta; lra.
Qed.

Lemma retrograde_iff (pv : list number) :
  retrograde pv = true <-> exists speed, index pv 1 = Some speed /\ speed < 0.
Proof.
  unfold retrograde, truthy.
  destruct (index pv 1) as [s |].
  - rewrite andb_true_iff, negb_true_iff, ltb_lt. split.
    + intros [_ L]. exists s. split; [ reflexivity | exact L ].
    + intros (s' & E & L). injection E as <-. split; [ | exact L ].
      destruct (Qeq_bool s 0) eqn:Z; [ | reflexivity ].
      apply Qeq_bool_eq in Z. lra.
  - split; [ discriminate | ]. intros (s & E & _). discriminate.
Qed.

(** ** The entry points *)

(** C2. Every record of [transit] carries the precision
    [|gap - degree|], negated once when the transiting point approaches and
    once more when its speed is there and negative: its opposite when exactly
    one of the two holds, and the unsigned precision itself, which is not
    negative, when both hold or none does. *)
Theorem transit_precision_sign (this : AspectCalculator)
    (points : option Points) (r : FormedAspect) :
  In r (transit this points) ->
  exists pts pv,
    points = Some pts /\ In (name (point r), pv) pts
    /\ let p := position (point r) in
       let t := position (toPoint r) in
       let d := aspect_degree (aspect r) in
       let approaching := isTransitPointApproachingToAspect d t p in
       let unsigned := Math_abs (reducedGap p t - d) in
       let signed := transit_precision pv p t (data_of r) in
       precision r = toFixed signed 4
       /\ (retrograde pv = true <->
           exists speed, index pv 1 = Some speed /\ speed < 0)
       /\ signed
          = (let precision := unsigned in
             let precision :=
               if approaching then precision * -1 else precision in
             if retrograde pv then precision * -1 else precision)
       /\ 0 <= unsigned
       /\ (approaching = true -> retrograde pv = true -> signed == unsigned)
       /\ (approaching = true -> retrograde pv = false -> signed == - unsigned)
       /\ (approaching = false -> retrograde pv = true -> signed == - unsigned)
       /\ (approaching = false -> retrograde pv = false -> signed == unsigned).
Proof.
  destruct points as [pts |]; [ | contradiction ].
  intro H.
  destruct (transit_In this pts r H)
    as (np & pv & nt & tv & na & data & p & t
        & Hp & Ht & Ha & Ip & It & Has & ->).
  exists pts, pv. split; [ reflexivity | ]. split; [ exact Hp | ].
  unfold formed, data_of.
  cbn [precision point toPoint aspect name position aspect_degree
       aspect_orbit aspect_color aspect_lineStyle].
  cbv zeta.
  pose proof (transit_precision_value pv p t
                (mkAspectData (degree data) (orbit data) (color data)
                   (lineStyle data))) as V.
  cbn [degree] in V. rewrite calcPrecision_reducedGap in V.
  split; [ reflexivity | ].
  split; [ apply retrograde_iff | ].
  split; [ reflexivity | ].
  split; [ apply Qabs_nonneg | ].
  repeat split; intros A R; rewrite V, A, R; reflexivity.
Qed.

Lemma transit_precision_sign_witness :
  exists pts pv,
    Some [("Mars"%string, [86; -1])] = Some pts
    /\ In ("Mars"%string, pv) pts
    /\ toFixed (transit_precision pv 86 270
                  (mkAspectData 180 10 "#ff0000" "solid")) 4
       = "4.0000"%string.
Proof.
  destruct (transit_precision_sign
              (mkAspectCalculator DEFAULT_ASPECTS [("Moon"%string, [270])])
              (Some [("Mars"%string, [86; -1])])
              (formed "opposition" (mkAspectData 180 10 "#ff0000" "solid")
                 "Mars" 86 "Moon" 270 "4.0000"))
    as (pts & pv & E & I & P & _).
  - vm_compute. left. reflexivity.
  - exists pts, pv. repeat split; [ exact E | exact I | ].
    symmetry. exact P.
Defined.

(** C5. With the reference set [{"Moon": [90]}] and the default catalog,
    [radix({"Sun": [0]})] is exactly one record: Sun at 0 to Moon at 90, the
    default square (degree 90, orbit 8), precision ["0.0000"]; the square is
    the only aspect of the default catalog that the gap of 90 matches. *)
Theorem radix_sun_moon_square :
  exists engine,
    constructor (Some [("Moon"%string, [90])]) None = inr engine
    /\ radix engine (Some [("Sun"%string, [0])])
       = [ {| point := {| name := "Sun"; position := 0 |};
              toPoint := {| name := "Moon"; position := 90 |};
              aspect := {| aspect_name := "square";
                           aspect_degree := 90;
                           aspect_color := "#ff0000";
                           aspect_orbit := 8;
                           aspect_lineStyle := "short" |};
              precision := "0.0000" |} ]
    /\ map fst (filter (fun entry => hasAspect 0 90 (snd entry))
                  (settings_ASPECTS engine))
       = [ "square"%string ].
Proof.
  eexists. split; [ reflexivity | ]. split; vm_compute; reflexivity.
Qed.


(** C7. The sequence [radix] returns and the sequence [transit] returns are
    in ascending order of the parsed precision: for consecutive records the
    number the first precision string denotes is not above the next one's. *)
Theorem results_ascending (this : AspectCalculator) (points : option Points) :
  ascending (radix this points) /\ ascending (transit this points).
Proof.
  destruct points as [pts |].
  - split.
    + apply sort_ascending. intros r H.
      apply (In_Array_sort compareAspectsByPrecision) in H.
      destruct (radix_In this pts r H)
        as (np & pv & nt & tv & na & data & p & t & _ & _ & _ & _ & _ & _ & _ & ->).
      destruct (parseFloat_toFixed4 (calcPrecision p t (degree data)))
        as (q & P & _).
      exists q. exact P.
    + apply sort_ascending. intros r H.
      apply (In_Array_sort compareAspectsByPrecision) in H.
      destruct (transit_In this pts r H)
        as (np & pv & nt & tv & na & data & p & t & _ & _ & _ & _ & _ & _ & ->).
      destruct (parseFloat_toFixed4 (transit_precision pv p t data))
        as (q & P & _).
      exists q. exact P.
  - split; intros [| i] a b Ha; discriminate Ha.
Qed.

(** C8. [radix] never returns a record whose point and toPoint have the same
    name: the test is on the keys, whatever the positions. *)
Theorem radix_never_same_name (this : AspectCalculator)
    (points : option Points) (r : FormedAspect) :
  In r (radix this points) -> name (point r) <> name (toPoint r).
Proof.
  destruct points as [pts |]; [ | contradiction ].
  intro H.
  destruct (radix_In this pts r H)
    as (np & pv & nt & tv & na & data & p & t & _ & _ & _ & N & _ & _ & _ & ->).
  exact N.
Qed.

Lemma radix_never_same_name_witness : "Sun"%string <> "Moon"%string.
Proof.
  apply (radix_never_same_name
           (mkAspectCalculator DEFAULT_ASPECTS
              [("Sun"%string, [180]); ("Moon"%string, [90])])
           (Some [("Sun"%string, [0])])
           (formed "square" (mkAspectData 90 8 "#ff0000" "short")
              "Sun" 0 "Moon" 90 "0.0000")).
  vm_compute. left. reflexivity.
Defined.

(** The same-named pair is skipped though its positions are in opposition. *)
Lemma radix_same_name_skipped :
  map (fun r => (name (point r), name (toPoint r)))
    (radix (mkAspectCalculator DEFAULT_ASPECTS
              [("Sun"%string, [180]); ("Moon"%string, [90])])
       (Some [("Sun"%string, [0])]))
  = [ ("Sun"%string, "Moon"%string) ]
  /\ map (fun r => (name (point r), name (toPoint r)))
       (transit (mkAspectCalculator DEFAULT_ASPECTS
                   [("Sun"%string, [180]); ("Moon"%string, [90])])
          (Some [("Sun"%string, [0])]))
     = [ ("Sun"%string, "Sun"%string); ("Sun"%string, "Moon"%string) ].
Proof. split; vm_compute; reflexivity. Qed.

(** The specification's second case: reference [{"Sun": [10]}], query
    [{"Mars": [20, -1]}], default catalog.  The gap of 10 is in no window. *)
Lemma transit_mars_sun_empty :
  transit (mkAspectCalculator DEFAULT_ASPECTS [("Sun"%string, [10])])
    (Some [("Mars"%string, [20; -1])]) = []
  /\ radix (mkAspectCalculator DEFAULT_ASPECTS [("Sun"%string, [10])])
       (Some [("Mars"%string, [20; -1])]) = [].
Proof. split; vm_compute; reflexivity. Qed.

(** C9, the claim as stated fails on the message: the one thrown ends with a
    full stop. *)
Lemma constructor_message_differs :
  constructor None None <> inl "Param 'toPoint' must not be empty"%string.
Proof. discriminate. Qed.

(** C9, amended. Without a reference set the constructor throws an error of
    message ["Param 'toPoint' must not be empty."] (with the full stop) and
    makes no calculator, whatever the settings; without a query set [radix]
    and [transit] return the empty sequence. *)
Theorem constructor_and_null_query (settings : option Settings) :
  constructor None settings = inl "Param 'toPoint' must not be empty."%string
  /\ (forall engine, constructor None settings <> inr engine)
  /\ (forall this, radix this None = [] /\ transit this None = []).
Proof.
  split; [ reflexivity | ]. split; [ discriminate | ].
  intro this. split; reflexivity.
Qed.

(** ** An exact aspect in transit *)

(** On binary64 values the negation of a zero precision is the negative
    zero. *)
Lemma negated_zero_is_negative_zero :
  Binary64.transit_sign 0%float true false = neg_zero
  /\ Binary64.transit_sign 0%float false true = neg_zero
  /\ Binary64.transit_sign 0%float true true = 0%float.
Proof. repeat split; vm_compute; reflexivity. Qed.

(** C10. A record of [transit] for an exact aspect (unsigned precision 0)
    has the precision string ["0.0000"], with no minus sign, whether or not
    the negations applied.  On binary64 values too: the precision, zero,
    negated or not, is the positive or the negative zero, and [toFixed]
    prints either as ["0.0000"]. *)
Theorem exact_transit_precision_unsigned :
  (forall this points r,
      In r (transit this points) -> unsigned_precision r == 0 ->
      precision r = "0.0000"%string)
  /\ (forall approaching retrograde,
        Binary64.toFixed
          (Binary64.transit_sign 0%float approaching retrograde) 4
        = "0.0000"%string
        /\ Binary64.toFixed
             (Binary64.transit_sign neg_zero approaching retrograde) 4
           = "0.0000"%string).
Proof.
  split.
  - intros this [pts |] r H Z; [ | contradiction ].
    destruct (transit_In this pts r H)
      as (np & pv & nt & tv & na & data & p & t & _ & _ & _ & _ & _ & _ & ->).
    unfold unsigned_precision, formed in *.
    cbn [precision point toPoint aspect name position aspect_degree] in *.
    apply toFixed_zero. rewrite transit_precision_value.
    destruct (xorb _ _); rewrite Z; reflexivity.
  - intros [|] [|]; split; vm_compute; reflexivity.
Qed.

Lemma exact_transit_precision_unsigned_witness :
  precision
    (formed "square" (mkAspectData 90 8 "#ff0000" "short")
       "Sun" 0 "Moon" 90 "0.0000") = "0.0000"%string.
Proof.
  apply (proj1 exact_transit_precision_unsigned
           (mkAspectCalculator DEFAULT_ASPECTS [("Moon"%string, [90])])
           (Some [("Sun"%string, [0; -1])])).
  - vm_compute. left. reflexivity.
  - vm_compute. reflexivity.
Defined.

(** ** Further properties of the calculator *)

(** *** Construction *)

(** X1. Construction succeeds exactly when a reference set is given; the
    calculator then hands back that very set through [getToPoints], and its
    catalog is the caller's when the settings carry one, the nine default
    aspects otherwise. *)
Theorem constructor_getToPoints (toPoints : option Points)
    (settings : option Settings) :
  ((exists engine, constructor toPoints settings = inr engine)
   <-> toPoints <> None)
  /\ (forall engine,
        constructor toPoints settings = inr engine ->
        toPoints = Some (getToPoints engine)
        /\ settings_ASPECTS engine
           = match settings with
             | Some s =>
                 match ASPECTS s with
                 | Some catalog => catalog
                 | None => DEFAULT_ASPECTS
                 end
             | None => DEFAULT_ASPECTS
             end).
Proof.
  destruct toPoints as [tp |]; simpl; split.
  - split; [ discriminate | ]. intros _. eexists. reflexivity.
  - intros engine E. injection E as <-. split; reflexivity.
  - split; [ intros [engine E]; discriminate E | intro N; contradiction ].
  - intros engine E. discriminate E.
Qed.

Lemma constructor_getToPoints_witness :
  Some [("Moon"%string, [90])]
  = Some (getToPoints (mkAspectCalculator [] [("Moon"%string, [90])])).
Proof.
  apply (proj2 (constructor_getToPoints
                  (Some [("Moon"%string, [90])])
                  (Some (mkSettings (Some []))))
           (mkAspectCalculator [] [("Moon"%string, [90])])).
  reflexivity.
Defined.

(** *** The matching test and the precision *)

Lemma hasAspect_sym (p t : number) (a : AspectData) :
  hasAspect p t a = hasAspect t p a.
Proof.
  apply eq_true_iff_eq.
  rewrite !hasAspect_reducedGap, !andb_true_iff, !leb_le.
  pose proof (reducedGap_sym p t). lra.
Qed.

Lemma calcPrecision_sym (p t d : number) :
  calcPrecision p t d == calcPrecision t p d.
Proof.
  rewrite !calcPrecision_reducedGap. unfold Math_abs.
  apply Qabs_wd. rewrite (reducedGap_sym p t). reflexivity.
Qed.

(** X2. The two positions play the same part: [hasAspect] and
    [calcPrecision] are unchanged when point and toPoint are exchanged, and
    the precision is never negative. *)
Theorem matching_is_symmetric (p t : number) (a : AspectData) :
  hasAspect p t a = hasAspect t p a
  /\ calcPrecision p t (degree a) == calcPrecision t p (degree a)
  /\ 0 <= calcPrecision p t (degree a).
Proof.
  split; [ apply hasAspect_sym | ].
  split; [ apply calcPrecision_sym | ].
  apply Qabs_nonneg.
Qed.

Lemma reducedGap_range (p t : number) :
  in_circle p -> in_circle t -> 0 <= reducedGap p t /\ reducedGap p t <= 180.
Proof.
  intros [P0 P1] [T0 T1].
  destruct (reducedGap_cases p t) as [[L E] | [L E]];
    destruct (Qabs_cases (p - t)) as [[S V] | [S V]]; lra.
Qed.

(** X5. The windows of the nine default aspects do not overlap: a pair of
    positions has at most one aspect of the default catalog. *)
Theorem default_aspects_exclusive (p t : number)
    (n1 n2 : string) (d1 d2 : AspectData) :
  In (n1, d1) DEFAULT_ASPECTS -> In (n2, d2) DEFAULT_ASPECTS ->
  hasAspect p t d1 = true -> hasAspect p t d2 = true ->
  n1 = n2 /\ d1 = d2.
Proof.
  intros I1 I2 H1 H2.
  rewrite hasAspect_reducedGap, andb_true_iff, !leb_le in H1, H2.
  set (g := reducedGap p t) in *. clearbody g.
  assert (E8 : 8 / 2 == 4) by reflexivity.
  assert (E10 : 10 / 2 == 5) by reflexivity.
  unfold DEFAULT_ASPECTS in I1, I2. simpl In in I1, I2.
  repeat (destruct I1 as [I1 | I1]; [ injection I1 as <- <- | ]);
    try contradiction;
    repeat (destruct I2 as [I2 | I2]; [ injection I2 as <- <- | ]);
    try contradiction;
    cbn [degree orbit] in H1, H2;
    first [ split; reflexivity
          | exfalso; rewrite ?E8, ?E10 in H1, H2; lra ].
Qed.

Lemma default_aspects_exclusive_witness :
  "square"%string = "square"%string
  /\ mkAspectData 90 8 "#ff0000" "short" = mkAspectData 90 8 "#ff0000" "short".
Proof.
  apply (default_aspects_exclusive 0 90); try reflexivity;
    simpl; auto 10.
Defined.

(** *** Which records are returned *)

Lemma flat_map_nil {A B : Type} (f : A -> list B) (l : list A) :
  (forall x, In x l -> f x = []) -> flat_map f l = [].
Proof.
  induction l as [| x l IH]; intro H; simpl; [ reflexivity | ].
  rewrite (H x) by (left; reflexivity). apply IH.
  intros y Hy. apply H. right. exact Hy.
Qed.

Lemma radix_In_conv (this : AspectCalculator) (points : Points)
    (np nt na : string) (pv tv : list number) (data : AspectData)
    (p t : number) :
  In (np, pv) points -> In (nt, tv) (toPoints this) ->
  In (na, data) (settings_ASPECTS this) ->
  np <> nt -> index pv 0 = Some p -> index tv 0 = Some t ->
  hasAspect p t data = true ->
  In (formed na data np p nt t (toFixed (calcPrecision p t (degree data)) 4))
    (radix this (Some points)).
Proof.
  intros Hp Ht Ha N Ip It Has.
  unfold radix. apply In_Array_sort.
  apply in_flat_map. exists (np, pv). split; [ exact Hp | ].
  apply in_flat_map. exists (nt, tv). split; [ exact Ht | ].
  destruct (String.eqb_spec np nt) as [E | _]; [ contradiction | ].
  simpl negb. cbv iota.
  apply in_flat_map. exists (na, data). split; [ exact Ha | ].
  unfold radix_step. rewrite Ip, It, Has. left. reflexivity.
Qed.

Lemma transit_In_conv (this : AspectCalculator) (points : Points)
    (np nt na : string) (pv tv : list number) (data : AspectData)
    (p t : number) :
  In (np, pv) points -> In (nt, tv) (toPoints this) ->
  In (na, data) (settings_ASPECTS this) ->
  index pv 0 = Some p -> index tv 0 = Some t ->
  hasAspect p t data = true ->
  In (formed na data np p nt t (toFixed (transit_precision pv p t data) 4))
    (transit this (Some points)).
Proof.
  intros Hp Ht Ha Ip It Has.
  unfold transit. apply In_Array_sort.
  apply in_flat_map. exists (np, pv). split; [ exact Hp | ].
  apply in_flat_map. exists (nt, tv). split; [ exact Ht | ].
  apply in_flat_map. exists (na, data). split; [ exact Ha | ].
  unfold transit_step. rewrite Ip, It, Has. left. reflexivity.
Qed.

Lemma round4_nonneg (x : number) : 0 <= x -> 0 <= round4 x.
Proof.
  intro H. unfold round4.
  replace (ltb x 0) with false by (symmetry; apply ltb_ge; exact H).
  apply Qle_shift_div_l; [ apply pow10_pos | ].
  rewrite Qmult_0_l. change 0 with (inject_Z 0). rewrite <- Zle_Qle.
  apply rounded_nonneg, Qabs_nonneg.
Qed.

Lemma transit_precision_abs (pv : list number) (p t : number)
    (data : AspectData) :
  Qabs (transit_precision pv p t data) == calcPrecision p t (degree data).
Proof.
  rewrite transit_precision_value.
  assert (N : 0 <= calcPrecision p t (degree data)) by apply Qabs_nonneg.
  destruct (xorb _ _); [ rewrite Qabs_opp | ]; apply Qabs_pos; exact N.
Qed.

(** X10. The two entry points agree up to the sign: every record of [radix]
    is a record of [transit] on the same input, with the same point, toPoint
    and aspect and a precision of the same unsigned value; and every record
    of [transit] between points of different names is, with its precision
    unsigned, a record of [radix]. *)
Theorem radix_and_transit_agree (this : AspectCalculator)
    (points : option Points) (r : FormedAspect) :
  (In r (radix this points) ->
   exists r' v v',
     In r' (transit this points)
     /\ point r' = point r /\ toPoint r' = toPoint r /\ aspect r' = aspect r
     /\ precision_is r v /\ precision_is r' v' /\ 0 <= v /\ Qabs v' == v)
  /\ (In r (transit this points) ->
      name (point r) <> name (toPoint r) ->
      In {| point := point r; toPoint := toPoint r; aspect := aspect r;
            precision := toFixed (unsigned_precision r) 4 |}
        (radix this points)).
Proof.
  destruct points as [pts |]; [ | split; intros [] ].
  split.
  - intro H.
    destruct (radix_In this pts r H)
      as (np & pv & nt & tv & na & data & p & t
          & Hp & Ht & Ha & N & Ip & It & Has & ->).
    pose proof (transit_In_conv this pts np nt na pv tv data p t
                  Hp Ht Ha Ip It Has) as H'.
    destruct (parseFloat_toFixed4 (calcPrecision p t (degree data)))
      as (q & P & Q).
    destruct (parseFloat_toFixed4 (transit_precision pv p t data))
      as (q' & P' & Q').
    assert (U : 0 <= calcPrecision p t (degree data)) by apply Qabs_nonneg.
    pose proof (round4_nonneg _ U) as R.
    eexists. exists q, q'. split; [ exact H' | ].
    repeat split.
    + exists q. split; [ exact P | reflexivity ].
    + exists q'. split; [ exact P' | reflexivity ].
    + lra.
    + rewrite Q', Q.
      rewrite (round4_comp (transit_precision pv p t data)
                 (calcPrecision p t (degree data))).
      * apply Qabs_pos. exact R.
      * rewrite transit_precision_abs. symmetry. apply Qabs_pos. exact U.
  - intros H N.
    destruct (transit_In this pts r H)
      as (np & pv & nt & tv & na & data & p & t
          & Hp & Ht & Ha & Ip & It & Has & ->).
    cbn [formed name point toPoint] in N.
    apply (radix_In_conv this pts np nt na pv tv data p t); assumption.
Qed.

Lemma radix_and_transit_agree_witness :
  exists r' v v',
    In r' (transit (mkAspectCalculator DEFAULT_ASPECTS [("Moon"%string, [270])])
             (Some [("Mars"%string, [94; 1])]))
    /\ aspect_name (aspect r') = "opposition"%string
    /\ precision_is r' v' /\ 0 <= v /\ Qabs v' == v.
Proof.
  destruct (proj1 (radix_and_transit_agree
                     (mkAspectCalculator DEFAULT_ASPECTS
                        [("Moon"%string, [270])])
                     (Some [("Mars"%string, [94; 1])])
                     (formed "opposition"
                        (mkAspectData 180 10 "#ff0000" "solid")
                        "Mars" 94 "Moon" 270 "4.0000")))
    as (r' & v & v' & I & _ & _ & A & _ & P' & V & E).
  - vm_compute. left. reflexivity.
  - exists r', v, v'. rewrite A. repeat split; assumption.
Defined.




(** X15. [radix] reads the position of a query point and nothing else of
    its array: a speed, or anything after the position, does not change the
    result. *)
Theorem radix_reads_positions_only (this : AspectCalculator)
    (points : Points) :
  radix this (Some (map (fun entry => (fst entry, firstn 1 (snd entry))) points))
  = radix this (Some points).
Proof.
  unfold radix. f_equal.
  induction points as [| [np pv] points IH]; [ reflexivity | ].
  cbn [map flat_map fst snd]. rewrite IH. f_equal.
  apply flat_map_ext. intros [nt tv].
  destruct (negb (String.eqb np nt)); [ | reflexivity ].
  apply flat_map_ext. intros [na data].
  unfold radix_step, index. destruct pv as [| p pv]; reflexivity.
Qed.

(** ** Whole numbers on doubles *)

Lemma In_range (lo : Z) (n : nat) (x : Z) :
  In x (range lo n) <-> (lo <= x < lo + Z.of_nat n)%Z.
Proof.
  unfold range. rewrite in_map_iff. split.
  - intros (i & <- & H). apply in_seq in H. lia.
  - intro H. exists (Z.to_nat (x - lo)). split; [ lia | ].
    apply in_seq. lia.
Qed.

Lemma forallb_range (f : Z -> bool) (lo : Z) (n : nat) :
  forallb f (range lo n) = true ->
  forall x, (lo <= x < lo + Z.of_nat n)%Z -> f x = true.
Proof.
  intros H x Hx. rewrite forallb_forall in H. apply H, In_range, Hx.
Qed.

Lemma float_eq (x y : float) : PrimFloat.Leibniz.eqb x y = true -> x = y.
Proof. apply FloatAxioms.Leibniz.eqb_spec. Qed.

Lemma half_turn_f64 : F64.radiansToDegree F64.Math_PI = 180%float.
Proof. reflexivity. Qed.

Lemma full_turn_f64 :
  F64.radiansToDegree (2 * F64.Math_PI)%float = 360%float.
Proof. reflexivity. Qed.

Lemma grid_sub (x y : Z) :
  (0 <= x < 360)%Z -> (0 <= y < 360)%Z ->
  (F64.of_Z x - F64.of_Z y)%float = F64.of_Z (x - y).
Proof.
  intros Hx Hy. apply float_eq.
  refine (forallb_range _ 0 360 (forallb_range
    (fun x => forallb (fun y =>
       PrimFloat.Leibniz.eqb (F64.of_Z x - F64.of_Z y)%float (F64.of_Z (x - y)))
       (range 0 360)) 0 360 _ x Hx) y Hy).
  vm_compute. reflexivity.
Qed.

Lemma grid_add (x a : Z) :
  (0 <= x < 360)%Z -> (0 <= a <= 180)%Z ->
  (F64.of_Z x + F64.of_Z a)%float = F64.of_Z (x + a).
Proof.
  intros Hx Ha. apply float_eq.
  refine (forallb_range _ 0 181 (forallb_range
    (fun x => forallb (fun a =>
       PrimFloat.Leibniz.eqb (F64.of_Z x + F64.of_Z a)%float (F64.of_Z (x + a)))
       (range 0 181)) 0 360 _ x Hx) a _); [ vm_compute; reflexivity | lia ].
Qed.

Lemma grid_rem (s : Z) :
  (0 <= s < 540)%Z -> F64.rem (F64.of_Z s) 360%float = F64.of_Z (Z.rem s 360).
Proof.
  intro Hs. apply float_eq.
  refine (forallb_range
    (fun s => PrimFloat.Leibniz.eqb (F64.rem (F64.of_Z s) 360%float)
                (F64.of_Z (Z.rem s 360))) 0 540 _ s Hs).
  vm_compute. reflexivity.
Qed.

Lemma grid_abs (d : Z) :
  (-360 < d < 360)%Z -> abs (F64.of_Z d) = F64.of_Z (Z.abs d).
Proof.
  intro Hd. apply float_eq.
  refine (forallb_range
    (fun d => PrimFloat.Leibniz.eqb (abs (F64.of_Z d)) (F64.of_Z (Z.abs d)))
    (-359) 719 _ d _); [ vm_compute; reflexivity | lia ].
Qed.

Lemma grid_ltb (x y : Z) :
  (-360 < x < 360)%Z -> (-360 < y < 360)%Z ->
  (F64.of_Z x <? F64.of_Z y)%float = (x <? y)%Z.
Proof.
  intros Hx Hy. apply eqb_prop.
  refine (forallb_range _ (-359) 719 (forallb_range
    (fun x => forallb (fun y =>
       Bool.eqb (F64.of_Z x <? F64.of_Z y)%float (x <? y)%Z)
       (range (-359) 719)) (-359) 719 _ x _) y _);
    [ vm_compute; reflexivity | lia | lia ].
Qed.

Lemma grid_leb (x y : Z) :
  (-360 < x < 361)%Z -> (-360 < y < 361)%Z ->
  (F64.of_Z x <=? F64.of_Z y)%float = (x <=? y)%Z.
Proof.
  intros Hx Hy. apply eqb_prop.
  refine (forallb_range _ (-359) 720 (forallb_range
    (fun x => forallb (fun y =>
       Bool.eqb (F64.of_Z x <=? F64.of_Z y)%float (x <=? y)%Z)
       (range (-359) 720)) (-359) 720 _ x _) y _);
    [ vm_compute; reflexivity | lia | lia ].
Qed.

Lemma grid_gap (p t : Z) :
  (0 <= p < 360)%Z -> (0 <= t < 360)%Z ->
  F64.reducedGap (F64.of_Z p) (F64.of_Z t) = F64.of_Z (gapZ p t).
Proof.
  intros Hp Ht. apply float_eq.
  refine (forallb_range _ 0 360 (forallb_range
    (fun p => forallb (fun t =>
       PrimFloat.Leibniz.eqb (F64.reducedGap (F64.of_Z p) (F64.of_Z t))
         (F64.of_Z (gapZ p t)))
       (range 0 360)) 0 360 _ p Hp) t Ht).
  vm_compute. reflexivity.
Qed.

(** On whole numbers of the circle [isTransitPointApproachingToAspect]
    computes what the integer arithmetic gives. *)
Lemma grid_approach (a t p : Z) :
  (0 <= a <= 180)%Z -> (0 <= t < 360)%Z -> (0 <= p < 360)%Z ->
  F64.isTransitPointApproachingToAspect (F64.of_Z a) (F64.of_Z t) (F64.of_Z p)
  = approachZ a t p.
Proof.
  intros Ha Ht Hp.
  unfold F64.isTransitPointApproachingToAspect, approachZ.
  rewrite half_turn_f64, full_turn_f64.
  change 0%float with (F64.of_Z 0). change 180%float with (F64.of_Z 180).
  rewrite !(grid_sub p t), !(grid_sub t p) by lia.
  rewrite !grid_ltb by lia.
  rewrite !grid_add by lia.
  assert (Rp : (0 <= Z.rem (p + a) 360 < 360)%Z)
    by (rewrite Z.rem_mod_nonneg by lia; apply Z.mod_pos_bound; lia).
  assert (Rt : (0 <= Z.rem (t + a) 360 < 360)%Z)
    by (rewrite Z.rem_mod_nonneg by lia; apply Z.mod_pos_bound; lia).
  destruct (0 <? p - t)%Z; [ destruct (180 <? p - t)%Z | destruct (180 <? t - p)%Z ];
    rewrite grid_rem by lia; cbv zeta beta iota;
    rewrite !grid_sub by lia; rewrite grid_abs by lia;
    rewrite !grid_ltb by lia;
    match goal with
    | |- context [(180 <? Z.abs ?d)%Z] => destruct (180 <? Z.abs d)%Z
    end;
    cbv iota; rewrite ?grid_sub by lia; rewrite grid_ltb by lia; reflexivity.
Qed.

(** Linear integer arithmetic with the remainders spelled out. *)
Ltac zsolve :=
  first [ reflexivity | discriminate
        | Z.div_mod_to_equations; lia
        | exfalso; Z.div_mod_to_equations; lia ].

(** Decide every test of the integer form of the approach rule. *)
Ltac approachZ_cases :=
  unfold approachZ, gapZ;
  repeat match goal with
    | |- context [Z.rem ?x 360] =>
        rewrite (Z.rem_mod_nonneg x 360) by lia
    end;
  repeat (cbv beta iota zeta;
          match goal with
          | |- context [(?x <? ?y)%Z] => destruct (Z.ltb_spec x y)
          end);
  cbv beta iota zeta.

(** ** The approach rule on whole numbers *)

(** Off the whole numbers equal positions can approach below 180 too: the
    degree next below 180 at position 300. *)
Lemma same_position_approach_rounded :
  F64.isTransitPointApproachingToAspect (180 - 0x1p-45)%float 300%float
    300%float = true
  /\ (180 - 0x1p-45 <? 180)%float = true.
Proof. split; vm_compute; reflexivity. Qed.



(** X6. For a whole-number aspect degree in [0, 180] and whole-number
    positions in [0, 360) (degree 180 at equal positions from 180 on
    excepted), the transiting point is either ahead of the reference point,
    the shorter arc leading forward to it, or behind it, never both; it
    approaches exactly when it is ahead with the reduced gap below the
    degree, or behind with the reduced gap above it. *)
Theorem approach_direction_whole (a p t : Z) :
  (0 <= a <= 180)%Z -> (0 <= p < 360)%Z -> (0 <= t < 360)%Z ->
  ~ (a = 180 /\ p = t /\ 180 <= p)%Z ->
  let g := gapZ p t in
  let ahead := ((0 < p - t /\ p - t <= 180) \/ 180 < t - p)%Z in
  let behind := ((p - t <= 0 /\ t - p <= 180) \/ 180 < p - t)%Z in
  (ahead \/ behind)
  /\ ~ (ahead /\ behind)
  /\ (F64.isTransitPointApproachingToAspect (F64.of_Z a) (F64.of_Z t)
        (F64.of_Z p) = true
      <-> (ahead /\ g < a)%Z \/ (behind /\ a < g)%Z).
Proof.
  intros Ha Hp Ht X. cbv zeta.
  split; [ lia | ]. split; [ lia | ].
  rewrite grid_approach by lia.
  approachZ_cases; split; intros; zsolve.
Qed.

Lemma approach_direction_whole_witness :
  F64.isTransitPointApproachingToAspect (F64.of_Z 90) (F64.of_Z 0)
    (F64.of_Z 80) = true.
Proof.
  refine (proj2 (proj2 (proj2 (approach_direction_whole 90 80 0 _ _ _ _))) _);
    try lia.
  left. unfold gapZ. simpl. lia.
Defined.

(** ** The order of doubles *)

Lemma digits2_pos_bounds (m : positive) :
  (2 ^ (Zpos (digits2_pos m) - 1) <= Zpos m < 2 ^ Zpos (digits2_pos m))%Z.
Proof.
  induction m as [m IH | m IH |]; cbn [digits2_pos].
  - rewrite Pos2Z.inj_succ, Z.pow_succ_r by lia.
    replace (Z.succ (Zpos (digits2_pos m)) - 1)%Z
      with (Z.succ (Zpos (digits2_pos m) - 1)) by lia.
    rewrite Z.pow_succ_r by lia. lia.
  - rewrite Pos2Z.inj_succ, Z.pow_succ_r by lia.
    replace (Z.succ (Zpos (digits2_pos m)) - 1)%Z
      with (Z.succ (Zpos (digits2_pos m) - 1)) by lia.
    rewrite Z.pow_succ_r by lia. lia.
  - simpl. lia.
Qed.

(** A finite double [m * 2^e]: the exponent is at least -1074, the mantissa
    is below 2^53, and at least 2^52 unless the exponent is the least one. *)
Lemma valid_finite (s : bool) (m : positive) (e : Z) :
  valid_binary prec emax (S754_finite s m e) = true ->
  (-1074 <= e /\ Zpos m < 2 ^ 53 /\ (-1074 < e -> 2 ^ 52 <= Zpos m))%Z.
Proof.
  unfold valid_binary, bounded, canonical_mantissa, fexp, SpecFloat.emin.
  change prec with 53%Z. change emax with 1024%Z.
  rewrite andb_true_iff, Z.eqb_eq. intros [C _].
  pose proof (digits2_pos_bounds m) as [L U].
  set (d := Zpos (digits2_pos m)) in *.
  assert (D : (d <= 53)%Z) by lia.
  split; [ lia | ]. split.
  - apply (Z.lt_le_trans _ _ _ U). apply Z.pow_le_mono_r; lia.
  - intro E. replace d with 53%Z in L by lia. exact L.
Qed.

Lemma scaled_lt (s1 s2 : bool) (m1 m2 : positive) (e1 e2 : Z) :
  valid_binary prec emax (S754_finite s1 m1 e1) = true ->
  valid_binary prec emax (S754_finite s2 m2 e2) = true ->
  (e1 < e2)%Z ->
  (2 ^ (e1 + 1074) * Zpos m1 < 2 ^ (e2 + 1074) * Zpos m2)%Z.
Proof.
  intros V1 V2 E.
  destruct (valid_finite _ _ _ V1) as (E1 & M1 & _).
  destruct (valid_finite _ _ _ V2) as (E2 & _ & M2).
  assert (E3 : (-1074 < e2)%Z) by (clear - E E1; lia). specialize (M2 E3).
  replace (e2 + 1074)%Z with ((e2 - e1 - 1) + 1 + (e1 + 1074))%Z by lia.
  rewrite (Z.pow_add_r 2 (e2 - e1 - 1 + 1) (e1 + 1074)),
    (Z.pow_add_r 2 (e2 - e1 - 1) 1) by lia.
  assert (P : (0 < 2 ^ (e1 + 1074))%Z) by (apply Z.pow_pos_nonneg; lia).
  assert (Q : (1 <= 2 ^ (e2 - e1 - 1))%Z)
    by (apply (Z.pow_le_mono_r 2 0); lia).
  change (2 ^ 1)%Z with 2%Z.
  change (2 ^ 53)%Z with (2 * 2 ^ 52)%Z in M1.
  set (a := (2 ^ (e1 + 1074))%Z) in *.
  set (b := (2 ^ (e2 - e1 - 1))%Z) in *.
  set (c := (2 ^ 52)%Z) in *.
  assert (c0 : (0 < c)%Z) by (subst c; reflexivity).
  clearbody a b c.
  assert (H1 : (c <= Zpos m2 * b)%Z) by nia.
  assert (H2 : (Zpos m1 * a < 2 * c * a)%Z) by nia.
  assert (H3 : (2 * c * a <= 2 * (Zpos m2 * b) * a)%Z) by nia.
  replace (b * 2 * a * Zpos m2)%Z with (2 * (Zpos m2 * b) * a)%Z by ring.
  lia.
Qed.

Lemma SFcompare_scaled (x y : spec_float) (vx vy : Z) :
  valid_binary prec emax x = true -> valid_binary prec emax y = true ->
  F64.sf_scaled x = Some vx -> F64.sf_scaled y = Some vy ->
  SFcompare x y = Some (vx ?= vy)%Z.
Proof.
  intros Vx Vy Sx Sy.
  destruct x as [sx | sx | | sx mx ex]; try discriminate Sx;
    destruct y as [sy | sy | | sy my ey]; try discriminate Sy;
    unfold F64.sf_scaled in Sx, Sy; cbv zeta in Sx, Sy;
    injection Sx as <-; injection Sy as <-.
  - reflexivity.
  - assert (P : (0 < 2 ^ (ey + 1074) * Zpos my)%Z).
    { destruct (valid_finite _ _ _ Vy). apply Z.mul_pos_pos; [ | lia ].
      apply Z.pow_pos_nonneg; lia. }
    unfold SFcompare. destruct sy; f_equal; symmetry.
    + apply Z.compare_gt_iff. lia.
    + apply Z.compare_lt_iff. lia.
  - assert (P : (0 < 2 ^ (ex + 1074) * Zpos mx)%Z).
    { destruct (valid_finite _ _ _ Vx). apply Z.mul_pos_pos; [ | lia ].
      apply Z.pow_pos_nonneg; lia. }
    unfold SFcompare. destruct sx; f_equal; symmetry.
    + apply Z.compare_lt_iff. lia.
    + apply Z.compare_gt_iff. lia.
  - assert (Px : (0 < 2 ^ (ex + 1074) * Zpos mx)%Z).
    { destruct (valid_finite _ _ _ Vx). apply Z.mul_pos_pos; [ | lia ].
      apply Z.pow_pos_nonneg; lia. }
    assert (Py : (0 < 2 ^ (ey + 1074) * Zpos my)%Z).
    { destruct (valid_finite _ _ _ Vy). apply Z.mul_pos_pos; [ | lia ].
      apply Z.pow_pos_nonneg; lia. }
    assert (C : (2 ^ (ex + 1074) * Zpos mx ?= 2 ^ (ey + 1074) * Zpos my)%Z
                = match (ex ?= ey)%Z with
                  | Lt => Lt
                  | Gt => Gt
                  | Eq => Pos.compare_cont Eq mx my
                  end).
    { destruct (Z.compare_spec ex ey) as [E | E | E].
      - subst ey.
        change (Pos.compare_cont Eq mx my) with (Zpos mx ?= Zpos my)%Z.
        destruct (valid_finite _ _ _ Vx).
        assert (P : (0 < 2 ^ (ex + 1074))%Z) by (apply Z.pow_pos_nonneg; lia).
        destruct (Z.compare_spec (Zpos mx) (Zpos my)) as [H' | H' | H'].
        + rewrite H'. apply Z.compare_refl.
        + apply Z.compare_lt_iff, Z.mul_lt_mono_pos_l; assumption.
        + apply Z.compare_gt_iff, Z.mul_lt_mono_pos_l; assumption.
      - apply Z.compare_lt_iff. eapply scaled_lt; eassumption.
      - apply Z.compare_gt_iff. eapply scaled_lt; eassumption. }
    unfold SFcompare. destruct sx, sy; f_equal.
    + rewrite Z.compare_opp.
      rewrite (Z.compare_antisym (2 ^ (ex + 1074) * Zpos mx)
                 (2 ^ (ey + 1074) * Zpos my)), C.
      destruct (ex ?= ey)%Z; reflexivity.
    + symmetry. apply Z.compare_lt_iff. lia.
    + symmetry. apply Z.compare_gt_iff. lia.
    + symmetry. exact C.
Qed.

Lemma leb_scaled (x y : float) (vx vy : Z) :
  F64.scaled x = Some vx -> F64.scaled y = Some vy ->
  (x <=? y)%float = (vx <=? vy)%Z.
Proof.
  intros Sx Sy. rewrite FloatAxioms.leb_spec. unfold SFleb.
  rewrite (SFcompare_scaled _ _ vx vy
             (FloatAxioms.Prim2SF_valid x) (FloatAxioms.Prim2SF_valid y) Sx Sy).
  unfold Z.leb. destruct (vx ?= vy)%Z; reflexivity.
Qed.

Lemma ltb_scaled (x y : float) (vx vy : Z) :
  F64.scaled x = Some vx -> F64.scaled y = Some vy ->
  (x <? y)%float = (vx <? vy)%Z.
Proof.
  intros Sx Sy. rewrite FloatAxioms.ltb_spec. unfold SFltb.
  rewrite (SFcompare_scaled _ _ vx vy
             (FloatAxioms.Prim2SF_valid x) (FloatAxioms.Prim2SF_valid y) Sx Sy).
  unfold Z.ltb. destruct (vx ?= vy)%Z; reflexivity.
Qed.

(** The comparisons of the program are the order of the real numbers the
    doubles are. *)
Lemma real_scaled (x : float) (q : Q) :
  F64.real x = Some q ->
  exists v, F64.scaled x = Some v /\ q = inject_Z v / inject_Z (2 ^ 1074).
Proof.
  unfold F64.real. destruct (F64.scaled x) as [v |]; [ | discriminate ].
  intro E. injection E as <-. exists v. split; reflexivity.
Qed.

Lemma scaled_order (v w : Z) :
  (inject_Z v / inject_Z (2 ^ 1074) <= inject_Z w / inject_Z (2 ^ 1074)
   <-> (v <= w)%Z)
  /\ (inject_Z v / inject_Z (2 ^ 1074) < inject_Z w / inject_Z (2 ^ 1074)
      <-> (v < w)%Z).
Proof.
  assert (P : 0 < / inject_Z (2 ^ 1074)).
  { apply Qinv_lt_0_compat. change 0 with (inject_Z 0). rewrite <- Zlt_Qlt.
    apply Z.pow_pos_nonneg; lia. }
  unfold Qdiv. split.
  - rewrite Qmult_le_r by exact P. rewrite <- Zle_Qle. reflexivity.
  - rewrite Qmult_lt_r by exact P. rewrite <- Zlt_Qlt. reflexivity.
Qed.

Lemma leb_real (x y : float) (qx qy : Q) :
  F64.real x = Some qx -> F64.real y = Some qy ->
  ((x <=? y)%float = true <-> qx <= qy).
Proof.
  intros Rx Ry.
  destruct (real_scaled x qx Rx) as (vx & Sx & ->).
  destruct (real_scaled y qy Ry) as (vy & Sy & ->).
  rewrite (leb_scaled x y vx vy Sx Sy), Z.leb_le.
  symmetry. apply scaled_order.
Qed.

Lemma ltb_real (x y : float) (qx qy : Q) :
  F64.real x = Some qx -> F64.real y = Some qy ->
  ((x <? y)%float = true <-> qx < qy).
Proof.
  intros Rx Ry.
  destruct (real_scaled x qx Rx) as (vx & Sx & ->).
  destruct (real_scaled y qy Ry) as (vy & Sy & ->).
  rewrite (ltb_scaled x y vx vy Sx Sy), Z.ltb_lt.
  symmetry. apply scaled_order.
Qed.

(** ** Exchanging the operands of a subtraction *)

Lemma binary_round_abs (s : bool) (m : positive) (e : Z) :
  SFabs (binary_round prec emax s m e)
  = SFabs (binary_round prec emax false m e).
Proof.
  unfold binary_round, binary_round_aux.
  destruct (shl_align m e _) as [mz ez].
  destruct (shr_fexp prec emax (Zpos mz) ez loc_Exact) as [mrs' e'].
  destruct (shr_fexp prec emax _ e' loc_Exact) as [mrs'' e''].
  destruct (shr_m mrs''); [ reflexivity | | reflexivity ].
  destruct (e'' <=? emax - prec)%Z; reflexivity.
Qed.

Lemma binary_normalize_abs (m : Z) (e : Z) :
  SFabs (binary_normalize prec emax (- m) e false)
  = SFabs (binary_normalize prec emax m e false).
Proof.
  destruct m as [| m | m]; cbn [Z.opp binary_normalize].
  - reflexivity.
  - apply binary_round_abs.
  - symmetry. apply binary_round_abs.
Qed.

Lemma SFsub_abs_sym (x y : spec_float) :
  SFabs (FloatAxioms.SF64sub x y) = SFabs (FloatAxioms.SF64sub y x).
Proof.
  unfold FloatAxioms.SF64sub.
  destruct x as [sx | sx | | sx mx ex], y as [sy | sy | | sy my ey];
    try reflexivity;
    try (destruct sx, sy; reflexivity);
    try (destruct sx; reflexivity);
    try (destruct sy; reflexivity).
  unfold SFsub. rewrite (Z.min_comm ey ex).
  set (A := cond_Zopp sx _). set (B := cond_Zopp sy _).
  replace (B - A)%Z with (- (A - B))%Z by lia.
  symmetry. apply binary_normalize_abs.
Qed.

Lemma abs_sub_sym (x y : float) : abs (x - y) = abs (y - x).
Proof.
  apply FloatAxioms.Prim2SF_inj.
  rewrite !FloatAxioms.abs_spec, !FloatAxioms.sub_spec.
  apply SFsub_abs_sym.
Qed.

Lemma reducedGap_f64_sym (a b : float) :
  F64.reducedGap a b = F64.reducedGap b a.
Proof. unfold F64.reducedGap. rewrite (abs_sub_sym a b). reflexivity. Qed.


Lemma gapZ_range (p t : Z) :
  (0 <= p < 360)%Z -> (0 <= t < 360)%Z ->
  (0 <= gapZ p t <= 180)%Z /\ gapZ p t = gapZ t p.
Proof.
  intros Hp Ht. unfold gapZ.
  destruct (Z.ltb_spec 180 (Z.abs (p - t)));
    destruct (Z.ltb_spec 180 (Z.abs (t - p))); lia.
Qed.

Lemma grid_half (h : Z) :
  (0 <= h <= 180)%Z -> (F64.of_Z (2 * h) / 2)%float = F64.of_Z h.
Proof.
  intro Hh. apply float_eq.
  refine (forallb_range
    (fun h => PrimFloat.Leibniz.eqb (F64.of_Z (2 * h) / 2)%float (F64.of_Z h))
    0 181 _ h _); [ vm_compute; reflexivity | lia ].
Qed.

(** ** The matching test on doubles *)

(** C1, the claim as stated fails: the program tests the gap it computes,
    and [266 - 2^-60] rounds to 266.  For positions 266 and 2^-60 and the
    default square the computed gap is 94 and [hasAspect] is true; the
    distance along the shorter arc is [94 + 2^-60], outside [86, 94]. *)
Lemma hasAspect_rounded_gap :
  F64.hasAspect 266%float 0x1p-60%float
    (F64.mkAspectData 90%float 8%float "#ff0000" "short") = true
  /\ exists p t,
       F64.real 266%float = Some p /\ F64.real 0x1p-60%float = Some t
       /\ p == 266 /\ t == 1 # (2 ^ 60)
       /\ 90 + 8 / 2 < shorterArc p t.
Proof.
  split; [ vm_compute; reflexivity | ].
  eexists. eexists.
  split; [ reflexivity | ]. split; [ reflexivity | ].
  repeat split; vm_compute; reflexivity.
Qed.

Lemma hasAspect_f64_reducedGap (p t : float) (a : F64.AspectData) :
  F64.hasAspect p t a
  = ((F64.degree a - F64.orbit a / 2 <=? F64.reducedGap p t)%float
     && (F64.reducedGap p t <=? F64.degree a + F64.orbit a / 2)%float).
Proof.
  unfold F64.hasAspect, F64.reducedGap.
  destruct (_ && _); reflexivity.
Qed.

(** C1, amended.  [hasAspect] is true exactly when the reduced gap as the
    program computes it on doubles lies between the computed bounds
    [degree - orbit/2] and [degree + orbit/2], both included; when the three
    are finite that is the order of the real numbers they are, and strictly
    outside the window the answer is false.  For whole-number positions in
    [0, 360) the computed gap is the distance along the shorter arc, and
    with a whole-number degree and half orbit the test is the one on that
    distance. *)
Theorem hasAspect_computed_window (p t : float) (a : F64.AspectData) :
  let g := F64.reducedGap p t in
  let lo := (F64.degree a - F64.orbit a / 2)%float in
  let hi := (F64.degree a + F64.orbit a / 2)%float in
  (F64.hasAspect p t a = true
   <-> (lo <=? g)%float = true /\ (g <=? hi)%float = true)
  /\ (forall ql qg qh,
        F64.real lo = Some ql -> F64.real g = Some qg ->
        F64.real hi = Some qh ->
        (F64.hasAspect p t a = true <-> ql <= qg /\ qg <= qh)
        /\ (F64.hasAspect p t a = false <-> qg < ql \/ qh < qg))
  /\ (forall x y : Z,
        (0 <= x < 360)%Z -> (0 <= y < 360)%Z ->
        let arc := Z.min (Z.abs (x - y)) (360 - Z.abs (x - y)) in
        F64.reducedGap (F64.of_Z x) (F64.of_Z y) = F64.of_Z arc
        /\ forall (d h : Z) (c l : string),
             (0 <= d <= 180)%Z -> (0 <= h <= 180)%Z ->
             (F64.hasAspect (F64.of_Z x) (F64.of_Z y)
                (F64.mkAspectData (F64.of_Z d) (F64.of_Z (2 * h)) c l) = true
              <-> (d - h <= arc /\ arc <= d + h)%Z)).
Proof.
  cbv zeta. rewrite hasAspect_f64_reducedGap, andb_true_iff.
  split; [ tauto | ]. split.
  - intros ql qg qh Rl Rg Rh.
    pose proof (leb_real _ _ _ _ Rl Rg) as L.
    pose proof (leb_real _ _ _ _ Rg Rh) as H.
    assert (T : ((F64.degree a - F64.orbit a / 2 <=? F64.reducedGap p t)%float
                 && (F64.reducedGap p t <=? F64.degree a + F64.orbit a / 2)%float)
                = true <-> ql <= qg /\ qg <= qh)
      by (rewrite andb_true_iff, L, H; tauto).
    split; [ exact T | ].
    rewrite <- not_true_iff_false, T. split; intro; lra.
  - intros x y Hx Hy.
    assert (E : gapZ x y = Z.min (Z.abs (x - y)) (360 - Z.abs (x - y)))
      by (unfold gapZ; destruct (Z.ltb_spec 180 (Z.abs (x - y))); lia).
    destruct (gapZ_range x y Hx Hy) as [G _].
    rewrite <- E. split; [ apply grid_gap; assumption | ].
    intros d h c l Hd Hh.
    rewrite hasAspect_f64_reducedGap. cbn [F64.degree F64.orbit].
    rewrite grid_gap, grid_half, grid_sub, grid_add by lia.
    rewrite !grid_leb by lia.
    rewrite andb_true_iff, !Z.leb_le. tauto.
Qed.

Lemma hasAspect_computed_window_witness :
  F64.reducedGap (F64.of_Z 350) (F64.of_Z 10) = F64.of_Z 20.
Proof.
  refine (proj1 (proj2 (proj2 (hasAspect_computed_window 0%float 0%float
                                 (F64.mkAspectData 90%float 8%float "#ff0000" "short")))
                   350%Z 10%Z _ _)); lia.
Defined.

(** ** Swapping and turning the angles on doubles *)

Lemma of_Z_inj (x y : Z) :
  (-360 < x < 360)%Z -> (-360 < y < 360)%Z ->
  F64.of_Z x = F64.of_Z y -> x = y.
Proof.
  intros Hx Hy E.
  pose proof (grid_ltb x y Hx Hy) as A.
  pose proof (grid_ltb y x Hy Hx) as B.
  rewrite E in A, B. rewrite (grid_ltb y y Hy Hy) in A, B.
  rewrite Z.ltb_irrefl in A, B.
  symmetry in A, B. apply Z.ltb_ge in A, B. lia.
Qed.

Lemma grid_gap_turned (a b : Z) :
  (0 <= a < 360)%Z -> (0 <= b < 360)%Z ->
  F64.reducedGap (F64.of_Z a + 360)%float (F64.of_Z b)
  = F64.of_Z (if (a <=? b)%Z then gapZ a b else - (a - b)).
Proof.
  intros Ha Hb. apply float_eq.
  refine (forallb_range _ 0 360 (forallb_range
    (fun a => forallb (fun b =>
       PrimFloat.Leibniz.eqb
         (F64.reducedGap (F64.of_Z a + 360)%float (F64.of_Z b))
         (F64.of_Z (if (a <=? b)%Z then gapZ a b else - (a - b))))
       (range 0 360)) 0 360 _ a Ha) b Hb).
  vm_compute. reflexivity.
Qed.

(** C4, amended.  On doubles the reduced gap is the same when the two
    angles are exchanged.  A full turn is another matter: for whole-number
    positions in [0, 360) the gap is unchanged by 360 added to the first
    angle exactly when that angle is not the larger one, and by 360 added to
    the second exactly when that one is not the larger; 360 added to the
    larger angle gives minus their difference. *)
Theorem reducedGap_swap_and_turn_f64 :
  (forall a b : float, F64.reducedGap a b = F64.reducedGap b a)
  /\ (forall a b : Z,
        (0 <= a < 360)%Z -> (0 <= b < 360)%Z ->
        (F64.reducedGap (F64.of_Z a + 360)%float (F64.of_Z b)
         = F64.reducedGap (F64.of_Z a) (F64.of_Z b) <-> (a <= b)%Z)
        /\ (F64.reducedGap (F64.of_Z a) (F64.of_Z b + 360)%float
            = F64.reducedGap (F64.of_Z a) (F64.of_Z b) <-> (b <= a)%Z)
        /\ ((b < a)%Z ->
            F64.reducedGap (F64.of_Z a + 360)%float (F64.of_Z b)
            = F64.of_Z (- (a - b)))).
Proof.
  split; [ exact reducedGap_f64_sym | ].
  intros a b Ha Hb.
  destruct (gapZ_range a b Ha Hb) as [G S].
  rewrite (reducedGap_f64_sym (F64.of_Z a) (F64.of_Z b + 360)%float).
  rewrite (grid_gap_turned a b Ha Hb), (grid_gap_turned b a Hb Ha).
  rewrite (grid_gap a b Ha Hb).
  repeat split.
  - intro E. apply of_Z_inj in E; destruct (Z.leb_spec a b); lia.
  - intro L. destruct (Z.leb_spec a b); [ reflexivity | lia ].
  - intro E. apply of_Z_inj in E; destruct (Z.leb_spec b a); lia.
  - intro L. destruct (Z.leb_spec b a); [ rewrite S; reflexivity | lia ].
  - intro L. destruct (Z.leb_spec a b); [ lia | reflexivity ].
Qed.

Lemma reducedGap_swap_and_turn_f64_witness :
  F64.reducedGap (F64.of_Z 10 + 360)%float (F64.of_Z 20)
  = F64.reducedGap (F64.of_Z 10) (F64.of_Z 20).
Proof.
  refine (proj2 (proj1 (proj2 reducedGap_swap_and_turn_f64 10%Z 20%Z _ _)) _);
    lia.
Defined.

(** ** The precision on doubles *)


Lemma calcPrecision_f64_reducedGap (p t d : float) :
  F64.calcPrecision p t d = abs (F64.reducedGap p t - d)%float.
Proof. reflexivity. Qed.



(** ** An exact aspect on whole numbers *)

(** X7. For whole-number positions in [0, 360) and the aspect whose degree
    is their reduced gap (an exact aspect), the transiting point is not
    approaching and the precision is zero. *)
Theorem exact_aspect_not_approaching_whole (p t : Z) :
  (0 <= p < 360)%Z -> (0 <= t < 360)%Z ->
  F64.isTransitPointApproachingToAspect (F64.of_Z (gapZ p t)) (F64.of_Z t)
    (F64.of_Z p) = false
  /\ F64.calcPrecision (F64.of_Z p) (F64.of_Z t) (F64.of_Z (gapZ p t))
     = 0%float.
Proof.
  intros Hp Ht. destruct (gapZ_range p t Hp Ht) as [G _]. split.
  - rewrite grid_approach by lia. clear G.
    unfold gapZ. destruct (Z.ltb_spec 180 (Z.abs (p - t)));
      approachZ_cases; zsolve.
  - rewrite calcPrecision_f64_reducedGap, grid_gap, grid_sub, grid_abs by lia.
    rewrite Z.sub_diag. reflexivity.
Qed.

Lemma exact_aspect_not_approaching_whole_witness :
  F64.isTransitPointApproachingToAspect (F64.of_Z (gapZ 350 20)) (F64.of_Z 20)
    (F64.of_Z 350) = false.
Proof.
  refine (proj1 (exact_aspect_not_approaching_whole 350 20 _ _)); lia.
Defined.

(** ** Each record once *)

Lemma NoDup_insert {A : Type} (comparefn : A -> A -> option number)
    (x : A) (l : list A) :
  NoDup (x :: l) -> NoDup (insert comparefn x l).
Proof.
  induction l as [| y l IH]; intro H; simpl; [ exact H | ].
  destruct (leb (SortCompare comparefn x y) 0); [ exact H | ].
  inversion H as [| ? ? Hx Hl]; subst.
  inversion Hl as [| ? ? Hy Hl']; subst.
  constructor.
  - rewrite In_insert. intros [E | I]; [ | contradiction ].
    apply Hx. left. exact E.
  - apply IH. constructor; [ | exact Hl' ].
    intro I. apply Hx. right. exact I.
Qed.

Lemma NoDup_Array_sort {A : Type} (comparefn : A -> A -> option number)
    (l : list A) :
  NoDup l -> NoDup (Array_sort comparefn l).
Proof.
  induction 1 as [| x l Hx Hl IH]; simpl; [ constructor | ].
  apply NoDup_insert. constructor; [ | exact IH ].
  rewrite In_Array_sort. exact Hx.
Qed.

Lemma NoDup_flat_map {A B : Type} (f : A -> list B) (l : list A) :
  NoDup l ->
  (forall x, In x l -> NoDup (f x)) ->
  (forall x y b, In x l -> In y l -> In b (f x) -> In b (f y) -> x = y) ->
  NoDup (flat_map f l).
Proof.
  induction 1 as [| x l Hx Hl IH]; intros Hf Hd; simpl; [ constructor | ].
  apply NoDup_app.
  - apply Hf. left. reflexivity.
  - apply IH.
    + intros y Hy. apply Hf. right. exact Hy.
    + intros y z b Hy Hz. apply Hd; right; assumption.
  - intros b Hb Hb'. apply in_flat_map in Hb'. destruct Hb' as (y & Hy & Hb').
    apply Hx. rewrite (Hd x y b); auto; [ left; reflexivity | right; exact Hy ].
Qed.

Lemma keys_inj {V : Type} (o : list (string * V)) (x y : string * V) :
  distinct_keys o -> In x o -> In y o -> fst x = fst y -> x = y.
Proof.
  unfold distinct_keys.
  induction o as [| z o IH]; simpl; intros N Hx Hy E; [ contradiction | ].
  inversion N as [| ? ? Hz No]; subst.
  destruct Hx as [-> | Hx]; destruct Hy as [-> | Hy].
  - reflexivity.
  - exfalso. apply Hz. rewrite E. apply in_map. exact Hy.
  - exfalso. apply Hz. rewrite <- E. apply in_map. exact Hx.
  - apply IH; assumption.
Qed.

Lemma distinct_keys_NoDup {V : Type} (o : list (string * V)) :
  distinct_keys o -> NoDup o.
Proof. apply NoDup_map_inv. Qed.

Lemma radix_step_names (np nt na : string) (pv tv : list number)
    (data : AspectData) (r : FormedAspect) :
  In r (radix_step np pv nt tv na data) ->
  name (point r) = np /\ name (toPoint r) = nt /\ aspect_name (aspect r) = na.
Proof.
  unfold radix_step.
  destruct (index pv 0); [ | contradiction ].
  destruct (index tv 0); [ | contradiction ].
  destruct (hasAspect _ _ _); [ | contradiction ].
  intros [<- | []]. repeat split.
Qed.

Lemma transit_step_names (np nt na : string) (pv tv : list number)
    (data : AspectData) (r : FormedAspect) :
  In r (transit_step np pv nt tv na data) ->
  name (point r) = np /\ name (toPoint r) = nt /\ aspect_name (aspect r) = na.
Proof.
  unfold transit_step.
  destruct (index pv 0); [ | contradiction ].
  destruct (index tv 0); [ | contradiction ].
  destruct (hasAspect _ _ _); [ | contradiction ].
  intros [<- | []]. repeat split.
Qed.

Lemma radix_step_NoDup (np nt na : string) (pv tv : list number)
    (data : AspectData) :
  NoDup (radix_step np pv nt tv na data).
Proof.
  unfold radix_step.
  destruct (index pv 0); [ | constructor ].
  destruct (index tv 0); [ | constructor ].
  destruct (hasAspect _ _ _); repeat constructor. intros [].
Qed.

Lemma transit_step_NoDup (np nt na : string) (pv tv : list number)
    (data : AspectData) :
  NoDup (transit_step np pv nt tv na data).
Proof.
  unfold transit_step.
  destruct (index pv 0); [ | constructor ].
  destruct (index tv 0); [ | constructor ].
  destruct (hasAspect _ _ _); repeat constructor. intros [].
Qed.

Lemma radix_NoDup (this : AspectCalculator) (points : Points) :
  distinct_keys points -> distinct_keys (toPoints this) ->
  distinct_keys (settings_ASPECTS this) ->
  NoDup (radix this (Some points)).
Proof.
  intros Dp Dt Da. unfold radix. apply NoDup_Array_sort.
  apply NoDup_flat_map; [ apply distinct_keys_NoDup, Dp | | ].
  - intros [np pv] _.
    apply NoDup_flat_map; [ apply distinct_keys_NoDup, Dt | | ].
    + intros [nt tv] _.
      destruct (negb (String.eqb np nt)); [ | constructor ].
      apply NoDup_flat_map; [ apply distinct_keys_NoDup, Da | | ].
      * intros [na data] _. apply radix_step_NoDup.
      * intros [na data] [na' data'] b Hx Hy Hb Hb'.
        apply radix_step_names in Hb, Hb'.
        apply (keys_inj _ _ _ Da Hx Hy). simpl.
        destruct Hb as (_ & _ & <-). destruct Hb' as (_ & _ & <-).
        reflexivity.
    + intros [nt tv] [nt' tv'] b Hx Hy Hb Hb'.
      apply (keys_inj _ _ _ Dt Hx Hy). simpl.
      destruct (negb (String.eqb np nt)); [ | contradiction ].
      destruct (negb (String.eqb np nt')); [ | contradiction ].
      apply in_flat_map in Hb, Hb'.
      destruct Hb as ([na data] & _ & Hb).
      destruct Hb' as ([na' data'] & _ & Hb').
      apply radix_step_names in Hb, Hb'.
      destruct Hb as (_ & <- & _). destruct Hb' as (_ & <- & _).
      reflexivity.
  - intros [np pv] [np' pv'] b Hx Hy Hb Hb'.
    apply (keys_inj _ _ _ Dp Hx Hy). simpl.
    apply in_flat_map in Hb, Hb'.
    destruct Hb as ([nt tv] & _ & Hb).
    destruct Hb' as ([nt' tv'] & _ & Hb').
    destruct (negb (String.eqb np nt)); [ | contradiction ].
    destruct (negb (String.eqb np' nt')); [ | contradiction ].
    apply in_flat_map in Hb, Hb'.
    destruct Hb as ([na data] & _ & Hb).
    destruct Hb' as ([na' data'] & _ & Hb').
    apply radix_step_names in Hb, Hb'.
    destruct Hb as (<- & _ & _). destruct Hb' as (<- & _ & _).
    reflexivity.
Qed.

Lemma transit_NoDup (this : AspectCalculator) (points : Points) :
  distinct_keys points -> distinct_keys (toPoints this) ->
  distinct_keys (settings_ASPECTS this) ->
  NoDup (transit this (Some points)).
Proof.
  intros Dp Dt Da. unfold transit. apply NoDup_Array_sort.
  apply NoDup_flat_map; [ apply distinct_keys_NoDup, Dp | | ].
  - intros [np pv] _.
    apply NoDup_flat_map; [ apply distinct_keys_NoDup, Dt | | ].
    + intros [nt tv] _.
      apply NoDup_flat_map; [ apply distinct_keys_NoDup, Da | | ].
      * intros [na data] _. apply transit_step_NoDup.
      * intros [na data] [na' data'] b Hx Hy Hb Hb'.
        apply transit_step_names in Hb, Hb'.
        apply (keys_inj _ _ _ Da Hx Hy). simpl.
        destruct Hb as (_ & _ & <-). destruct Hb' as (_ & _ & <-).
        reflexivity.
    + intros [nt tv] [nt' tv'] b Hx Hy Hb Hb'.
      apply (keys_inj _ _ _ Dt Hx Hy). simpl.
      apply in_flat_map in Hb, Hb'.
      destruct Hb as ([na data] & _ & Hb).
      destruct Hb' as ([na' data'] & _ & Hb').
      apply transit_step_names in Hb, Hb'.
      destruct Hb as (_ & <- & _). destruct Hb' as (_ & <- & _).
      reflexivity.
  - intros [np pv] [np' pv'] b Hx Hy Hb Hb'.
    apply (keys_inj _ _ _ Dp Hx Hy). simpl.
    apply in_flat_map in Hb, Hb'.
    destruct Hb as ([nt tv] & _ & Hb).
    destruct Hb' as ([nt' tv'] & _ & Hb').
    apply in_flat_map in Hb, Hb'.
    destruct Hb as ([na data] & _ & Hb).
    destruct Hb' as ([na' data'] & _ & Hb').
    apply transit_step_names in Hb, Hb'.
    destruct Hb as (<- & _ & _). destruct Hb' as (<- & _ & _).
    reflexivity.
Qed.

(** X8. On sets without a key named hasOwnProperty and with distinct keys,
    [radix] returns each record once, and its records are exactly those of
    the triples it tests: a query point and a reference point of different
    names, both with a position, and a catalog entry for which [hasAspect]
    holds; the record carries the two names and positions, the entry's name
    and data unchanged, and [calcPrecision] to four decimals. *)
Theorem radix_records_once (this : AspectCalculator) (points : Points) :
  guard_safe points -> guard_safe (toPoints this) ->
  distinct_keys points -> distinct_keys (toPoints this) ->
  distinct_keys (settings_ASPECTS this) ->
  NoDup (radix this (Some points))
  /\ forall r,
       In r (radix this (Some points))
       <-> exists np pv nt tv na data p t,
             In (np, pv) points /\ In (nt, tv) (toPoints this)
             /\ In (na, data) (settings_ASPECTS this)
             /\ np <> nt
             /\ index pv 0 = Some p /\ index tv 0 = Some t
             /\ hasAspect p t data = true
             /\ r = {| point := {| name := np; position := p |};
                       toPoint := {| name := nt; position := t |};
                       aspect := {| aspect_name := na;
                                    aspect_degree := degree data;
                                    aspect_color := color data;
                                    aspect_orbit := orbit data;
                                    aspect_lineStyle := lineStyle data |};
                       precision :=
                         toFixed (calcPrecision p t (degree data)) 4 |}.
Proof.
  intros _ _ Dp Dt Da. split; [ apply radix_NoDup; assumption | ].
  intro r. split.
  - apply radix_In.
  - intros (np & pv & nt & tv & na & data & p & t
            & Hp & Ht & Ha & N & Ip & It & Has & ->).
    apply (radix_In_conv this points np nt na pv tv data p t); assumption.
Qed.

Lemma radix_records_once_witness :
  NoDup (radix (mkAspectCalculator DEFAULT_ASPECTS
                  [("Moon"%string, [90]); ("Mars"%string, [184])])
           (Some [("Sun"%string, [0])])).
Proof.
  refine (proj1 (radix_records_once
                   (mkAspectCalculator DEFAULT_ASPECTS
                      [("Moon"%string, [90]); ("Mars"%string, [184])])
                   [("Sun"%string, [0])] _ _ _ _ _)).
  - intros v [E | []]. discriminate E.
  - intros v [E | [E | []]]; discriminate E.
  - unfold distinct_keys. simpl. repeat constructor; simpl; intuition discriminate.
  - unfold distinct_keys. simpl. repeat constructor; simpl; intuition discriminate.
  - unfold distinct_keys. simpl. repeat constructor; simpl; intuition discriminate.
Defined.

(** X9. On sets without a key named hasOwnProperty and with distinct keys,
    [transit] returns each record once, and its records are exactly those
    of the triples it tests: a query point and a reference point, of the
    same name or not, both with a position, and a catalog entry for which
    [hasAspect] holds; the precision is the signed one, to four decimals. *)
Theorem transit_records_once (this : AspectCalculator) (points : Points) :
  guard_safe points -> guard_safe (toPoints this) ->
  distinct_keys points -> distinct_keys (toPoints this) ->
  distinct_keys (settings_ASPECTS this) ->
  NoDup (transit this (Some points))
  /\ forall r,
       In r (transit this (Some points))
       <-> exists np pv nt tv na data p t,
             In (np, pv) points /\ In (nt, tv) (toPoints this)
             /\ In (na, data) (settings_ASPECTS this)
             /\ index pv 0 = Some p /\ index tv 0 = Some t
             /\ hasAspect p t data = true
             /\ r = {| point := {| name := np; position := p |};
                       toPoint := {| name := nt; position := t |};
                       aspect := {| aspect_name := na;
                                    aspect_degree := degree data;
                                    aspect_color := color data;
                                    aspect_orbit := orbit data;
                                    aspect_lineStyle := lineStyle data |};
                       precision :=
                         toFixed (transit_precision pv p t data) 4 |}.
Proof.
  intros _ _ Dp Dt Da. split; [ apply transit_NoDup; assumption | ].
  intro r. split.
  - apply transit_In.
  - intros (np & pv & nt & tv & na & data & p & t
            & Hp & Ht & Ha & Ip & It & Has & ->).
    apply (transit_In_conv this points np nt na pv tv data p t); assumption.
Qed.

Lemma transit_records_once_witness :
  NoDup (transit (mkAspectCalculator DEFAULT_ASPECTS
                    [("Sun"%string, [182]); ("Moon"%string, [90])])
           (Some [("Sun"%string, [0; -1])])).
Proof.
  refine (proj1 (transit_records_once
                   (mkAspectCalculator DEFAULT_ASPECTS
                      [("Sun"%string, [182]); ("Moon"%string, [90])])
                   [("Sun"%string, [0; -1])] _ _ _ _ _)).
  - intros v [E | []]. discriminate E.
  - intros v [E | [E | []]]; discriminate E.
  - unfold distinct_keys. simpl. repeat constructor; simpl; intuition discriminate.
  - unfold distinct_keys. simpl. repeat constructor; simpl; intuition discriminate.
  - unfold distinct_keys. simpl. repeat constructor; simpl; intuition discriminate.
Defined.

(** ** Further properties, continued *)

(** X3. For positions in [0, 360) the reduced gap lies in [0, 180], so the
    precision against a degree in [0, 180] is at most 180. *)
Theorem reduced_gap_in_half_turn (p t : number) (a : AspectData) :
  in_circle p -> in_circle t ->
  (0 <= reducedGap p t /\ reducedGap p t <= 180)
  /\ (0 <= degree a -> degree a <= 180 -> calcPrecision p t (degree a) <= 180).
Proof.
  intros Hp Ht.
  destruct (reducedGap_range p t Hp Ht) as [G0 G1].
  split; [ split; assumption | ].
  intros D0 D1. rewrite calcPrecision_reducedGap. unfold Math_abs.
  destruct (Qabs_cases (reducedGap p t - degree a)) as [[S V] | [S V]]; lra.
Qed.

Lemma reduced_gap_in_half_turn_witness :
  0 <= reducedGap 350 10 /\ reducedGap 350 10 <= 180.
Proof.
  refine (proj1 (reduced_gap_in_half_turn 350 10
                   (mkAspectData 30 8 "#00ff00" "2,2") _ _));
    unfold in_circle; split; lra.
Defined.

Lemma grid_neg_half (h : Z) :
  (0 <= h <= 180)%Z -> (F64.of_Z (- (2 * h)) / 2)%float = F64.of_Z (- h).
Proof.
  intro Hh. apply float_eq.
  refine (forallb_range
    (fun h => PrimFloat.Leibniz.eqb (F64.of_Z (- (2 * h)) / 2)%float
                (F64.of_Z (- h)))
    0 181 _ h _); [ vm_compute; reflexivity | lia ].
Qed.

Lemma grid_sub_neg (x y : Z) :
  (0 <= x <= 180)%Z -> (0 <= y <= 180)%Z ->
  (F64.of_Z x - F64.of_Z (- y))%float = F64.of_Z (x + y)
  /\ (F64.of_Z x + F64.of_Z (- y))%float = F64.of_Z (x - y).
Proof.
  intros Hx Hy.
  assert (A : (PrimFloat.Leibniz.eqb (F64.of_Z x - F64.of_Z (- y))%float
                 (F64.of_Z (x + y))
               && PrimFloat.Leibniz.eqb (F64.of_Z x + F64.of_Z (- y))%float
                    (F64.of_Z (x - y))) = true).
  { refine (forallb_range _ 0 181 (forallb_range
      (fun x => forallb (fun y =>
         PrimFloat.Leibniz.eqb (F64.of_Z x - F64.of_Z (- y))%float
           (F64.of_Z (x + y))
         && PrimFloat.Leibniz.eqb (F64.of_Z x + F64.of_Z (- y))%float
              (F64.of_Z (x - y)))
         (range 0 181)) 0 181 _ x _) y _); [ vm_compute; reflexivity | lia | lia ]. }
  apply andb_true_iff in A. destruct A as [A B].
  split; apply float_eq; assumption.
Qed.

(** X4. A catalog entry of orbit zero matches exactly the pairs whose
    reduced gap is its degree.  An entry of negative orbit matches no pair
    when positions, degree and half orbit are whole numbers: positions in
    [0, 360), degree in [0, 180], orbit -2 h with 1 <= h <= 180. *)
Theorem degenerate_orbits :
  (forall (p t : number) (a : AspectData),
     orbit a == 0 ->
     (hasAspect p t a = true <-> reducedGap p t == degree a))
  /\ (forall (p t d h : Z) (c l : string),
        (0 <= p < 360)%Z -> (0 <= t < 360)%Z ->
        (0 <= d <= 180)%Z -> (1 <= h <= 180)%Z ->
        F64.hasAspect (F64.of_Z p) (F64.of_Z t)
          (F64.mkAspectData (F64.of_Z d) (F64.of_Z (- (2 * h))) c l) = false).
Proof.
  split.
  - intros p t a.
    assert (Hh : orbit a / 2 == orbit a * (1 # 2)) by field.
    rewrite hasAspect_reducedGap, andb_true_iff, !leb_le.
    set (h := orbit a / 2) in *. clearbody h.
    intro N; split; intro; lra.
  - intros p t d h c l Hp Ht Hd Hh.
    destruct (gapZ_range p t Hp Ht) as [G _].
    rewrite hasAspect_f64_reducedGap. cbn [F64.degree F64.orbit].
    rewrite grid_gap, grid_neg_half by lia.
    rewrite (proj1 (grid_sub_neg d h ltac:(lia) ltac:(lia))).
    rewrite (proj2 (grid_sub_neg d h ltac:(lia) ltac:(lia))).
    rewrite !grid_leb by lia.
    apply andb_false_iff.
    destruct (Z.leb_spec (d + h) (gapZ p t)); [ right | left; reflexivity ].
    apply Z.leb_gt. lia.
Qed.

Lemma degenerate_orbits_witness :
  F64.hasAspect (F64.of_Z 0) (F64.of_Z 90)
    (F64.mkAspectData (F64.of_Z 90) (F64.of_Z (- (2 * 4))) "#ff0000" "short")
  = false.
Proof.
  refine (proj2 degenerate_orbits 0%Z 90%Z 90%Z 4%Z _ _ _ _ _ _); lia.
Defined.

(** X11. With no query point, no reference point or no catalog entry there
    is nothing to compare: on sets without a key named hasOwnProperty,
    [radix] and [transit] return the empty sequence. *)
Theorem nothing_to_compare_safe (this : AspectCalculator) (points : Points) :
  guard_safe points -> guard_safe (toPoints this) ->
  points = [] \/ toPoints this = [] \/ settings_ASPECTS this = [] ->
  radix this (Some points) = [] /\ transit this (Some points) = [].
Proof.
  intros _ _ H. unfold radix, transit.
  split.
  - rewrite flat_map_nil; [ reflexivity | ].
    intros [np pv] Hp. apply flat_map_nil.
    intros [nt tv] Ht.
    destruct (negb (String.eqb np nt)); [ | reflexivity ].
    apply flat_map_nil. intros [na data] Ha.
    destruct H as [H | [H | H]]; rewrite H in *; contradiction.
  - rewrite flat_map_nil; [ reflexivity | ].
    intros [np pv] Hp. apply flat_map_nil.
    intros [nt tv] Ht. apply flat_map_nil. intros [na data] Ha.
    destruct H as [H | [H | H]]; rewrite H in *; contradiction.
Qed.

Lemma nothing_to_compare_safe_witness :
  radix (mkAspectCalculator [] [("Moon"%string, [90])])
    (Some [("Sun"%string, [0])]) = [].
Proof.
  refine (proj1 (nothing_to_compare_safe
                   (mkAspectCalculator [] [("Moon"%string, [90])])
                   [("Sun"%string, [0])] _ _ _)).
  - intros v [E | []]. discriminate E.
  - intros v [E | []]. discriminate E.
  - right. right. reflexivity.
Defined.

(** X13. When both positions of a record lie in [0, 360) and its aspect's
    degree in [0, 180], its precision is a decimal string with exactly four
    fractional digits: at least one digit, a point, four digits; in [radix]
    it never has a sign, in [transit] it may start with a minus sign. *)
Theorem precision_format_in_circle (this : AspectCalculator)
    (points : option Points) (r : FormedAspect) :
  in_circle (position (point r)) -> in_circle (position (toPoint r)) ->
  0 <= aspect_degree (aspect r) <= 180 ->
  (In r (radix this points) ->
   exists a b,
     precision r = string_of_list_ascii (a ++ "."%char :: b)
     /\ Forall (fun c => is_digit c = true) a
     /\ Forall (fun c => is_digit c = true) b
     /\ a <> [] /\ List.length b = 4%nat)
  /\ (In r (transit this points) ->
      exists s a b,
        (s = [] \/ s = ["-"%char])
        /\ precision r = string_of_list_ascii (s ++ a ++ "."%char :: b)
        /\ Forall (fun c => is_digit c = true) a
        /\ Forall (fun c => is_digit c = true) b
        /\ a <> [] /\ List.length b = 4%nat).
Proof.
  intros _ _ _.
  destruct points as [pts |]; [ | split; intros [] ].
  split; intro H.
  - destruct (radix_In this pts r H)
      as (np & pv & nt & tv & na & data & p & t
          & _ & _ & _ & _ & _ & _ & _ & ->).
    destruct (toFixed_shape (calcPrecision p t (degree data)) 4)
      as (a & b & E & Da & Db & Na & Lb & _); [ discriminate | ].
    replace (ltb (calcPrecision p t (degree data)) 0) with false in E
      by (symmetry; apply ltb_ge; apply Qabs_nonneg).
    exists a, b. repeat split; assumption.
  - destruct (transit_In this pts r H)
      as (np & pv & nt & tv & na & data & p & t
          & _ & _ & _ & _ & _ & _ & ->).
    destruct (toFixed_shape (transit_precision pv p t data) 4)
      as (a & b & E & Da & Db & Na & Lb & _); [ discriminate | ].
    exists (if ltb (transit_precision pv p t data) 0 then ["-"%char] else []),
      a, b.
    repeat split; try assumption.
    destruct (ltb _ 0); [ right | left ]; reflexivity.
Qed.

Lemma precision_format_in_circle_witness :
  exists a b,
    "0.0000"%string = string_of_list_ascii (a ++ "."%char :: b)
    /\ List.length b = 4%nat.
Proof.
  destruct (proj1 (precision_format_in_circle
                     (mkAspectCalculator DEFAULT_ASPECTS
                        [("Moon"%string, [90])])
                     (Some [("Sun"%string, [0])])
                     (formed "square" (mkAspectData 90 8 "#ff0000" "short")
                        "Sun" 0 "Moon" 90 "0.0000")
                     ltac:(unfold in_circle; simpl; lra)
                     ltac:(unfold in_circle; simpl; lra)
                     ltac:(simpl; lra)))
    as (a & b & E & _ & _ & _ & L).
  - vm_compute. left. reflexivity.
  - exists a, b. split; [ exact E | exact L ].
Defined.

(** X14. A query point and a reference point of one and the same name are
    compared by [transit] and skipped by [radix]: on sets without a key
    named hasOwnProperty, when their positions have an aspect of the
    catalog, [transit] returns a record whose point and toPoint both bear
    that name, and [radix] returns none. *)
Theorem same_name_pair_safe (this : AspectCalculator) (points : Points)
    (n na : string) (pv tv : list number) (data : AspectData) (p t : number) :
  guard_safe points -> guard_safe (toPoints this) ->
  In (n, pv) points -> In (n, tv) (toPoints this) ->
  In (na, data) (settings_ASPECTS this) ->
  index pv 0 = Some p -> index tv 0 = Some t ->
  hasAspect p t data = true ->
  (exists r, In r (transit this (Some points))
             /\ point r = mkNamedPosition n p
             /\ toPoint r = mkNamedPosition n t
             /\ aspect_name (aspect r) = na)
  /\ (forall r, In r (radix this (Some points)) ->
                ~ (name (point r) = n /\ name (toPoint r) = n)).
Proof.
  intros _ _ Hp Ht Ha Ip It Has. split.
  - eexists. split.
    + apply (transit_In_conv this points n n na pv tv data p t); assumption.
    + repeat split.
  - intros r H [E1 E2].
    destruct (radix_In this points r H)
      as (np & pv' & nt & tv' & na' & data' & p' & t'
          & _ & _ & _ & N & _ & _ & _ & ->).
    cbn [formed name point toPoint] in E1, E2. congruence.
Qed.

Lemma same_name_pair_safe_witness :
  exists r,
    In r (transit (mkAspectCalculator DEFAULT_ASPECTS [("Sun"%string, [182])])
            (Some [("Sun"%string, [0])]))
    /\ point r = mkNamedPosition "Sun" 0
    /\ toPoint r = mkNamedPosition "Sun" 182
    /\ aspect_name (aspect r) = "opposition"%string.
Proof.
  refine (proj1 (same_name_pair_safe
           (mkAspectCalculator DEFAULT_ASPECTS [("Sun"%string, [182])])
           [("Sun"%string, [0])] "Sun" "opposition" [0] [182]
           (mkAspectData 180 10 "#ff0000" "solid") 0 182 _ _ _ _ _ _ _ _));
    try reflexivity; simpl; auto;
    intros v [E | []]; discriminate E.
Defined.
